(** * faceverify: the face-verification page component

    A shallow embedding of the React component [Home] (the upload handler,
    the camera controller, the frame snapshot and [verifyFaces]) together
    with the properties its specification states about it.

    Modelling conventions.
    - JavaScript numbers are IEEE-754 binary64 values: Rocq's primitive
      [float], with the same rounding on every operation.
    - Handlers are programs over a small effect signature ([Op] for
      synchronous effects on the component, [Async] for awaited calls);
      an [await] is a suspension point, so the same program can be run to
      completion ([run]) or interleaved with other handlers ([step]).
    - A handler reads the React state variables it closes over at the
      moment it is invoked (they are arguments of the handler); the
      setters update the store at once; refs are read when the program
      reaches the read.
    - face-api.js, the camera, the canvas encoder and [FileReader] are the
      environment [Env]; their answers are parameters of every theorem.
    - An awaited promise settles with a value or a rejection.  The value
      [verifyFaces] awaits from face-api.js is not a promise but a task
      object whose [then] passes on the fulfilment handler only: when such
      a task fails, the [await] is never resumed ([Unsettled]). *)

From Stdlib Require Import Floats ZArith Ascii String DecimalString.
From stdpp Require Import gmap strings list.

Set Warnings "-inexact-float".

(** ** Values *)

Definition JsError := string.

(** The result of a call that may throw (or of a promise that may reject). *)
Inductive Outcome (A : Type) : Type :=
| Ok (a : A)
| Throw (e : JsError).
Arguments Ok {A} a.
Arguments Throw {A} e.

(** What becomes of an awaited call: it settles with an outcome, which
    resumes the awaiting code, or it fails without ever calling back, and
    its error is reported as an unhandled rejection. *)
Inductive Answer (R : Type) : Type :=
| Settled (o : Outcome R)
| Unsettled (e : JsError).
Arguments Settled {R} o.
Arguments Unsettled {R} e.

(** How a handler run to its end completes: it returns (normally or by
    throwing), or it stays for ever at an [await] that is never resumed. *)
Inductive Completion (A : Type) : Type :=
| Returned (o : Outcome A)
| Hung (e : JsError).
Arguments Returned {A} o.
Arguments Hung {A} e.

(** A decoded image, as [faceapi.fetchImage] returns it (an opaque handle). *)
Definition HTMLImageElement := nat.

(** [detectSingleFace(..).withFaceLandmarks().withFaceDescriptor()] yields
    [undefined] or a detection; the component reads its [descriptor]
    (a Float32Array) only. *)
Record Detection := { descriptor : list float }.

Record File := { fileName : string; fileBytes : string }.

(** A media stream is known by its tracks (device handles). *)
Record MediaStream := { getTracks : list nat }.

Record VideoElement := { srcObject : option MediaStream }.

Record Canvas := {
  width : N;
  height : N;
  context2d : bool;                 (* does getContext('2d') return a context *)
  bitmap : option VideoElement      (* what drawImage copied last *)
}.

(** ** The environment *)

(** Calls that leave the component, as recorded in the world's request log. *)
Inductive Request :=
| ReqLoadModels (url : string)
| ReqReadAsDataURL (f : File)
| ReqGetUserMedia
| ReqPlay
| ReqFetchImage (url : string)
| ReqDetectSingleFace (img : HTMLImageElement)
| ReqEuclideanDistance (a b : list float).

(** Answers of everything outside the component.  The camera and the video
    element answer by the number of requests issued so far, so successive
    requests may be answered differently; detection is told whether the
    models have been loaded.  [detectSingleFace] gives what running the
    detection task comes to: [Throw] is a task that fails, which the
    component never gets to see (see [settle]). *)
Record Env := {
  loadFromUri : string -> Outcome unit;
  readAsDataURL : File -> Outcome (option string);
  getUserMedia : nat -> Outcome nat;          (* granted: how many tracks *)
  play : nat -> Outcome unit;
  fetchImage : string -> Outcome HTMLImageElement;
  detectSingleFace : bool -> HTMLImageElement -> Outcome (option Detection);
  euclideanDistance : list float -> list float -> Outcome float;
  videoWidth : VideoElement -> N;
  videoHeight : VideoElement -> N;
  toDataURL : Canvas -> string -> string;
  Number_toString : float -> string
}.

(** ** Number.prototype.toFixed *)

Definition decimal (n : N) : string := NilZero.string_of_uint (N.to_uint n).

Fixpoint zeros (k : nat) : string :=
  match k with
  | O => EmptyString
  | S k' => String "0"%char (zeros k')
  end.

(** The integer [n] for which [n / 10^f - m * 2^e] is closest to zero, the
    larger one when two are as close. *)
Definition nearest_scaled (f : nat) (m : positive) (e : Z) : N :=
  if (0 <=? e)%Z
  then Z.to_N (10 ^ Z.of_nat f * Z.pos m * 2 ^ e)
  else Z.to_N ((2 * 10 ^ Z.of_nat f * Z.pos m + 2 ^ (- e)) / 2 ^ (1 - e)).

(** Is [m * 2^e >= 10^21]? *)
Definition at_least_1e21 (m : positive) (e : Z) : bool :=
  if (0 <=? e)%Z
  then (10 ^ 21 <=? Z.pos m * 2 ^ e)%Z
  else (10 ^ 21 * 2 ^ (- e) <=? Z.pos m)%Z.

Definition place_point (f : nat) (digits : string) : string :=
  match f with
  | O => digits
  | _ =>
      let padded :=
        if decide (String.length digits <= f)
        then zeros (f + 1 - String.length digits) +:+ digits
        else digits in
      let k := String.length padded in
      substring 0 (k - f) padded +:+ "." +:+ substring (k - f) f padded
  end.

(** [x.toFixed(fractionDigits)] for [0 <= fractionDigits <= 100], after
    ECMA-262: a non-finite [x] and an [x] of magnitude [>= 10^21] are printed
    by Number::toString, whose digits the standard leaves to the engine in
    the second case. *)
Definition toFixed (env : Env) (x : float) (fractionDigits : nat) : string :=
  match Prim2SF x with
  | S754_nan => "NaN"
  | S754_infinity s => if s then "-Infinity" else "Infinity"
  | S754_zero _ => place_point fractionDigits (decimal 0)
  | S754_finite s m e =>
      (if s then "-" else EmptyString) +:+
      (if at_least_1e21 m e
       then Number_toString env (abs x)
       else place_point fractionDigits (decimal (nearest_scaled fractionDigits m e)))
  end.

(** ** The component's state *)

(** The four [useState] variables of [Home]. *)
Record AppState := {
  uploadedImage : option string;
  cameraImage : option string;
  verificationResult : option string;
  isLoading : bool
}.

(** Which handler invocation is running; [ByVerify] carries the two images
    the invocation of [verifyFaces] closed over. *)
Inductive Origin :=
| ByLoadModels
| ByUpload
| ByStartCamera
| ByCapture
| ByVerify (uploaded camera : option string)
| ByCleanup.

(** The state variables, the three refs, the device (live tracks, next fresh
    track), whether the models are loaded, and two history variables: the
    requests issued so far and the invocation that last wrote
    [verificationResult]. *)
Record World := {
  app : AppState;
  videoRef : option VideoElement;
  canvasRef : option Canvas;
  streamRef : option MediaStream;
  liveTracks : gset nat;
  nextTrack : nat;
  modelsLoaded : bool;
  requests : list Request;
  resultBy : option Origin
}.

Definition with_app (a : AppState) (w : World) : World :=
  {| app := a; videoRef := videoRef w; canvasRef := canvasRef w;
     streamRef := streamRef w; liveTracks := liveTracks w;
     nextTrack := nextTrack w; modelsLoaded := modelsLoaded w;
     requests := requests w; resultBy := resultBy w |}.

Definition with_video (v : option VideoElement) (w : World) : World :=
  {| app := app w; videoRef := v; canvasRef := canvasRef w;
     streamRef := streamRef w; liveTracks := liveTracks w;
     nextTrack := nextTrack w; modelsLoaded := modelsLoaded w;
     requests := requests w; resultBy := resultBy w |}.

Definition with_canvas (c : option Canvas) (w : World) : World :=
  {| app := app w; videoRef := videoRef w; canvasRef := c;
     streamRef := streamRef w; liveTracks := liveTracks w;
     nextTrack := nextTrack w; modelsLoaded := modelsLoaded w;
     requests := requests w; resultBy := resultBy w |}.

Definition with_stream (s : option MediaStream) (w : World) : World :=
  {| app := app w; videoRef := videoRef w; canvasRef := canvasRef w;
     streamRef := s; liveTracks := liveTracks w;
     nextTrack := nextTrack w; modelsLoaded := modelsLoaded w;
     requests := requests w; resultBy := resultBy w |}.

Definition with_device (live : gset nat) (next : nat) (w : World) : World :=
  {| app := app w; videoRef := videoRef w; canvasRef := canvasRef w;
     streamRef := streamRef w; liveTracks := live;
     nextTrack := next; modelsLoaded := modelsLoaded w;
     requests := requests w; resultBy := resultBy w |}.

Definition with_models (b : bool) (w : World) : World :=
  {| app := app w; videoRef := videoRef w; canvasRef := canvasRef w;
     streamRef := streamRef w; liveTracks := liveTracks w;
     nextTrack := nextTrack w; modelsLoaded := b;
     requests := requests w; resultBy := resultBy w |}.

Definition log_request (r : Request) (w : World) : World :=
  {| app := app w; videoRef := videoRef w; canvasRef := canvasRef w;
     streamRef := streamRef w; liveTracks := liveTracks w;
     nextTrack := nextTrack w; modelsLoaded := modelsLoaded w;
     requests := requests w ++ [r]; resultBy := resultBy w |}.

Definition with_result (v : option string) (who : Origin) (w : World) : World :=
  {| app := {| uploadedImage := uploadedImage (app w);
               cameraImage := cameraImage (app w);
               verificationResult := v;
               isLoading := isLoading (app w) |};
     videoRef := videoRef w; canvasRef := canvasRef w;
     streamRef := streamRef w; liveTracks := liveTracks w;
     nextTrack := nextTrack w; modelsLoaded := modelsLoaded w;
     requests := requests w; resultBy := Some who |}.

(** ** Effects *)

(** Synchronous effects of the handlers. *)
Inductive Op : Type -> Type :=
| SetUploadedImage (v : option string) : Op unit
| SetCameraImage (v : option string) : Op unit
| SetVerificationResult (v : option string) : Op unit
| SetIsLoading (b : bool) : Op unit
| StreamRefCurrent : Op (option MediaStream)
| SetStreamRefCurrent (s : option MediaStream) : Op unit
| VideoRefCurrent : Op (option VideoElement)
| CanvasRefCurrent : Op (option Canvas)
| TrackStop (track : nat) : Op unit
| VideoWidth : Op N
| VideoHeight : Op N
| SetSrcObject (s : MediaStream) : Op unit
| SetCanvasWidth (n : N) : Op unit
| SetCanvasHeight (n : N) : Op unit
| CanvasWidth : Op N
| CanvasHeight : Op N
| GetContext2d : Op bool
| DrawImage (dx dy dw dh : N) : Op unit
| ToDataURL (mime : string) : Op string
| EuclideanDistance (a b : list float) : Op float
| ConsoleLog (msg : string) : Op unit
| ConsoleError (msg : string) : Op unit
| Alert (msg : string) : Op unit.

(** Calls whose result is awaited.  [LoadModels] is the [Promise.all] of the
    three [loadFromUri] calls; [ReadFile] is [reader.readAsDataURL] with the
    load event as its answer. *)
Inductive Async : Type -> Type :=
| LoadModels (url : string) : Async unit
| ReadFile (f : File) : Async (option string)
| GetUserMedia : Async MediaStream
| Play : Async unit
| FetchImage (url : string) : Async HTMLImageElement
| DetectSingleFace (img : HTMLImageElement) : Async (option Detection).

(** Handler code: a tree of effects; every effect hands its outcome (a value
    or a thrown error) to the rest of the program. *)
Inductive Prog (A : Type) : Type :=
| Ret (a : A)
| Raise (e : JsError)
| Do {R : Type} (op : Op R) (k : Outcome R -> Prog A)
| Await {R : Type} (c : Async R) (k : Outcome R -> Prog A).
Arguments Ret {A} a.
Arguments Raise {A} e.
Arguments Do {A R} op k.
Arguments Await {A R} c k.

Fixpoint bind {A B : Type} (p : Prog A) (f : A -> Prog B) : Prog B :=
  match p with
  | Ret a => f a
  | Raise e => Raise e
  | Do op k => Do op (fun o => bind (k o) f)
  | Await c k => Await c (fun o => bind (k o) f)
  end.

#[global] Instance Prog_ret : MRet Prog := @Ret.
#[global] Instance Prog_bind : MBind Prog := fun A B f p => bind p f.

(** A thrown outcome propagates as an exception. *)
Definition resume {R : Type} (o : Outcome R) : Prog R :=
  match o with
  | Ok r => Ret r
  | Throw e => Raise e
  end.

Definition perform {R : Type} (op : Op R) : Prog R := Do op resume.
Definition await {R : Type} (c : Async R) : Prog R := Await c resume.

(** [try { p } catch (error) { handler error }] *)
Fixpoint try_catch {A : Type} (p : Prog A) (handler : JsError -> Prog A) : Prog A :=
  match p with
  | Ret a => Ret a
  | Raise e => handler e
  | Do op k => Do op (fun o => try_catch (k o) handler)
  | Await c k => Await c (fun o => try_catch (k o) handler)
  end.

(** [try { p } finally { cleanup }] *)
Fixpoint finally {A : Type} (p : Prog A) (cleanup : Prog unit) : Prog A :=
  match p with
  | Ret a => cleanup ;; Ret a
  | Raise e => cleanup ;; Raise e
  | Do op k => Do op (fun o => finally (k o) cleanup)
  | Await c k => Await c (fun o => finally (k o) cleanup)
  end.

Fixpoint forEach {A : Type} (l : list A) (f : A -> Prog unit) : Prog unit :=
  match l with
  | [] => Ret tt
  | x :: l' => f x ;; forEach l' f
  end.

(** JavaScript truthiness of a [string | null]. *)
Definition truthy (v : option string) : option string :=
  match v with
  | Some s => if decide (s = EmptyString) then None else Some s
  | None => None
  end.

(** ** Semantics of the effects *)

Definition type_error : JsError := "TypeError: null element".

Definition on_canvas {R : Type} (w : World) (f : Canvas -> Outcome R * World) : Outcome R * World :=
  match canvasRef w with
  | Some c => f c
  | None => (Throw type_error, w)
  end.

Definition on_video {R : Type} (w : World) (f : VideoElement -> Outcome R * World) : Outcome R * World :=
  match videoRef w with
  | Some v => f v
  | None => (Throw type_error, w)
  end.

(** One synchronous effect, performed by the invocation [who]. *)
Definition exec_op (env : Env) (who : Origin) {R : Type} (op : Op R) (w : World) : Outcome R * World :=
  match op in Op R return Outcome R * World with
  | SetUploadedImage v =>
      (Ok tt, with_app {| uploadedImage := v; cameraImage := cameraImage (app w);
                          verificationResult := verificationResult (app w);
                          isLoading := isLoading (app w) |} w)
  | SetCameraImage v =>
      (Ok tt, with_app {| uploadedImage := uploadedImage (app w); cameraImage := v;
                          verificationResult := verificationResult (app w);
                          isLoading := isLoading (app w) |} w)
  | SetVerificationResult v => (Ok tt, with_result v who w)
  | SetIsLoading b =>
      (Ok tt, with_app {| uploadedImage := uploadedImage (app w);
                          cameraImage := cameraImage (app w);
                          verificationResult := verificationResult (app w);
                          isLoading := b |} w)
  | StreamRefCurrent => (Ok (streamRef w), w)
  | SetStreamRefCurrent s => (Ok tt, with_stream s w)
  | VideoRefCurrent => (Ok (videoRef w), w)
  | CanvasRefCurrent => (Ok (canvasRef w), w)
  | TrackStop track => (Ok tt, with_device (liveTracks w ∖ {[track]}) (nextTrack w) w)
  | VideoWidth => on_video w (fun v => (Ok (videoWidth env v), w))
  | VideoHeight => on_video w (fun v => (Ok (videoHeight env v), w))
  | SetSrcObject s => on_video w (fun _ => (Ok tt, with_video (Some {| srcObject := Some s |}) w))
  | SetCanvasWidth n =>
      on_canvas w (fun c =>
        (Ok tt, with_canvas (Some {| width := n; height := height c;
                                     context2d := context2d c; bitmap := None |}) w))
  | SetCanvasHeight n =>
      on_canvas w (fun c =>
        (Ok tt, with_canvas (Some {| width := width c; height := n;
                                     context2d := context2d c; bitmap := None |}) w))
  | CanvasWidth => on_canvas w (fun c => (Ok (width c), w))
  | CanvasHeight => on_canvas w (fun c => (Ok (height c), w))
  | GetContext2d => on_canvas w (fun c => (Ok (context2d c), w))
  | DrawImage _ _ _ _ =>
      on_canvas w (fun c =>
        on_video w (fun v =>
          (Ok tt, with_canvas (Some {| width := width c; height := height c;
                                       context2d := context2d c; bitmap := Some v |}) w)))
  | ToDataURL mime => on_canvas w (fun c => (Ok (toDataURL env c mime), w))
  | EuclideanDistance a b =>
      (euclideanDistance env a b, log_request (ReqEuclideanDistance a b) w)
  | ConsoleLog _ => (Ok tt, w)
  | ConsoleError _ => (Ok tt, w)
  | Alert _ => (Ok tt, w)
  end.

Definition request_of {R : Type} (c : Async R) : Request :=
  match c with
  | LoadModels url => ReqLoadModels url
  | ReadFile f => ReqReadAsDataURL f
  | GetUserMedia => ReqGetUserMedia
  | Play => ReqPlay
  | FetchImage url => ReqFetchImage url
  | DetectSingleFace img => ReqDetectSingleFace img
  end.

(** Issuing an awaited call records it. *)
Definition issue {R : Type} (c : Async R) (w : World) : World :=
  log_request (request_of c) w.

(** The environment answers an awaited call.  A granted camera request
    delivers a stream of fresh, live tracks; a successful load marks the
    models as loaded.  The promises of the browser and [fetchImage] settle
    either way; a detection task that fails leaves its [await] unsettled. *)
Definition settle (env : Env) {R : Type} (c : Async R) (w : World) : Answer R * World :=
  match c in Async R return Answer R * World with
  | LoadModels url =>
      match loadFromUri env url with
      | Ok _ => (Settled (Ok tt), with_models true w)
      | Throw e => (Settled (Throw e), w)
      end
  | ReadFile f => (Settled (readAsDataURL env f), w)
  | GetUserMedia =>
      match getUserMedia env (length (requests w)) with
      | Ok n =>
          let fresh := seq (nextTrack w) n in
          (Settled (Ok {| getTracks := fresh |}),
           with_device (liveTracks w ∪ list_to_set fresh) (nextTrack w + n) w)
      | Throw e => (Settled (Throw e), w)
      end
  | Play => (Settled (play env (length (requests w))), w)
  | FetchImage url => (Settled (fetchImage env url), w)
  | DetectSingleFace img =>
      (match detectSingleFace env (modelsLoaded w) img with
       | Ok r => Settled (Ok r)
       | Throw e => Unsettled e
       end, w)
  end.

(** Where an invocation stands after running as far as it can. *)
Inductive Status (A : Type) : Type :=
| Finished (o : Outcome A)
| Blocked {R : Type} (c : Async R) (k : Outcome R -> Prog A).
Arguments Finished {A} o.
Arguments Blocked {A R} c k.

(** Run the synchronous effects up to the end or to the next [await]. *)
Fixpoint advance (env : Env) (who : Origin) {A : Type} (p : Prog A) (w : World) : Status A * World :=
  match p with
  | Ret a => (Finished (Ok a), w)
  | Raise e => (Finished (Throw e), w)
  | Do op k => let '(o, w') := exec_op env who op w in advance env who (k o) w'
  | Await c k => (Blocked c k, issue c w)
  end.

(** Run to completion, every awaited call answered as soon as it is issued;
    the run stops where an awaited call is left unsettled. *)
Fixpoint run (env : Env) (who : Origin) {A : Type} (p : Prog A) (w : World) : Completion A * World :=
  match p with
  | Ret a => (Returned (Ok a), w)
  | Raise e => (Returned (Throw e), w)
  | Do op k => let '(o, w') := exec_op env who op w in run env who (k o) w'
  | Await c k =>
      match settle env c (issue c w) with
      | (Settled o, w') => run env who (k o) w'
      | (Unsettled e, w') => (Hung e, w')
      end
  end.

(** ** The handlers of [Home] *)

Definition setUploadedImage (v : option string) : Prog unit := perform (SetUploadedImage v).
Definition setCameraImage (v : option string) : Prog unit := perform (SetCameraImage v).
Definition setVerificationResult (v : option string) : Prog unit := perform (SetVerificationResult v).
Definition setIsLoading (b : bool) : Prog unit := perform (SetIsLoading b).
Definition consoleLog (msg : string) : Prog unit := perform (ConsoleLog msg).
Definition consoleError (msg : string) : Prog unit := perform (ConsoleError msg).
Definition alert (msg : string) : Prog unit := perform (Alert msg).

(** [stream.getTracks().forEach(track => track.stop())] *)
Definition stopTracks (stream : MediaStream) : Prog unit :=
  forEach (getTracks stream) (fun track => perform (TrackStop track)).

Definition loadModels : Prog unit :=
  let MODEL_URL := "models" in
  try_catch
    (await (LoadModels MODEL_URL) ;;
     consoleLog "Face-api models loaded")
    (fun error => consoleError "Error loading face-api models:").

(** The cleanup the mount effect returns. *)
Definition cleanup : Prog unit :=
  current ← perform StreamRefCurrent;
  match current with
  | Some stream => stopTracks stream
  | None => Ret tt
  end.

(** [files] is [event.target.files]; the continuation of [ReadFile] is
    [reader.onload]. *)
Definition handleImageUpload (files : list File) : Prog unit :=
  match head files with
  | Some file =>
      Await (ReadFile file) (fun e =>
        match e with
        | Ok result =>
            match truthy result with
            | Some url =>
                setUploadedImage (Some url) ;;
                setVerificationResult None
            | None => Ret tt
            end
        | Throw _ => Ret tt
        end)
  | None => Ret tt
  end.

Definition startCamera : Prog unit :=
  try_catch
    (current ← perform StreamRefCurrent;
     match current with
     | Some stream => stopTracks stream
     | None => Ret tt
     end ;;
     stream ← await GetUserMedia;
     perform (SetStreamRefCurrent (Some stream)) ;;
     video ← perform VideoRefCurrent;
     match video with
     | Some _ => perform (SetSrcObject stream) ;; await Play
     | None => Ret tt
     end)
    (fun error =>
       consoleError "Error accessing camera:" ;;
       alert "Unable to access camera. Please ensure camera permissions are granted.").

Definition captureImage : Prog unit :=
  canvas ← perform CanvasRefCurrent;
  video ← perform VideoRefCurrent;
  match canvas, video with
  | Some _, Some _ =>
      vw ← perform VideoWidth;
      perform (SetCanvasWidth vw) ;;
      vh ← perform VideoHeight;
      perform (SetCanvasHeight vh) ;;
      context ← perform GetContext2d;
      if (context : bool) then
        cw ← perform CanvasWidth;
        ch ← perform CanvasHeight;
        perform (DrawImage 0 0 cw ch) ;;
        url ← perform (ToDataURL "image/jpeg");
        setCameraImage (Some url) ;;
        setVerificationResult None
      else Ret tt
  | _, _ => Ret tt
  end.

Definition msg_missing : string :=
  "Please upload an image and capture a camera image first.".
Definition msg_no_match : string := "No Match - Different persons detected".
Definition msg_no_face : string :=
  "Face not detected in one or both images. Please try again with clearer images.".
Definition msg_error : string :=
  "Error occurred during verification. Please try again.".
Definition msg_match (env : Env) (confidence : float) : string :=
  "Match! Confidence: " +:+ toFixed env confidence 1 +:+ "%".

Definition threshold : float := 0.6%float.

(** [verifyFaces], invoked in a render whose state holds [uploadedImage]
    and [cameraImage]. *)
Definition verifyFaces (env : Env) (uploadedImage cameraImage : option string) : Prog unit :=
  match truthy uploadedImage, truthy cameraImage with
  | Some uploaded, Some camera =>
      setIsLoading true ;;
      finally
        (try_catch
           (uploadedImg ← await (FetchImage uploaded);
            cameraImg ← await (FetchImage camera);
            uploadedDetections ← await (DetectSingleFace uploadedImg);
            cameraDetections ← await (DetectSingleFace cameraImg);
            match cameraDetections with
            | None => consoleError "No face detected in the camera image."
            | Some _ => Ret tt
            end ;;
            consoleLog "Captured Camera Image:" ;;
            consoleLog "Uploaded Detections:" ;;
            consoleLog "Camera Detections:" ;;
            match uploadedDetections, cameraDetections with
            | Some u, Some c =>
                consoleLog "Detections:" ;;
                distance ← perform (EuclideanDistance (descriptor u) (descriptor c));
                let isMatch := (distance <? threshold)%float in
                setVerificationResult
                  (Some (if isMatch
                         then msg_match env ((1 - distance / threshold) * 100)%float
                         else msg_no_match))
            | _, _ => setVerificationResult (Some msg_no_face)
            end)
           (fun error =>
              consoleError "Error during face verification:" ;;
              setVerificationResult (Some msg_error)))
        (setIsLoading false)
  | _, _ =>
      setVerificationResult (Some msg_missing)
  end.

(** ** The page as an event system *)

(** An invocation in flight: suspended at a call that is still to be
    answered (who it is, the call it awaits, and the rest), or stuck at a
    call that failed without settling. *)
Inductive Task :=
| Suspended (who : Origin) {R : Type} (c : Async R) (k : Outcome R -> Prog unit)
| Stuck (who : Origin) (e : JsError).

Definition task_origin (t : Task) : Origin :=
  match t with
  | Suspended who _ _ => who
  | Stuck who _ => who
  end.

Record Sys := {
  world : World;
  tasks : list Task;
  unhandled : list JsError      (* uncaught errors and unhandled rejections *)
}.

(** Start or continue an invocation until it ends or awaits. *)
Definition dispatch (env : Env) (who : Origin) (p : Prog unit) (s : Sys) : Sys :=
  match advance env who p (world s) with
  | (Finished (Ok _), w) => {| world := w; tasks := tasks s; unhandled := unhandled s |}
  | (Finished (Throw e), w) => {| world := w; tasks := tasks s; unhandled := unhandled s ++ [e] |}
  | (Blocked c k, w) => {| world := w; tasks := tasks s ++ [Suspended who c k]; unhandled := unhandled s |}
  end.

(** The [disabled] attribute of the verify button. *)
Definition verifyDisabled (a : AppState) : bool :=
  isLoading a || negb (bool_decide (is_Some (truthy (uploadedImage a))))
              || negb (bool_decide (is_Some (truthy (cameraImage a)))).

Inductive Event :=
| Mount                           (* the mount effect: loadModels() *)
| Unmount                         (* the elements go, then its cleanup runs *)
| ChangeFile (files : list File)  (* onChange of the file input *)
| ClickStartCamera
| ClickCapture
| ClickVerify
| Settle (i : nat).               (* the i-th pending call is answered *)

(** On unmount React detaches the two element refs (they become [null])
    before it runs the cleanup of the mount effect; [streamRef] is a plain
    ref and keeps its value. *)
Definition step (env : Env) (ev : Event) (s : Sys) : Sys :=
  match ev with
  | Mount => dispatch env ByLoadModels loadModels s
  | Unmount =>
      dispatch env ByCleanup cleanup
        {| world := with_canvas None (with_video None (world s));
           tasks := tasks s; unhandled := unhandled s |}
  | ChangeFile files => dispatch env ByUpload (handleImageUpload files) s
  | ClickStartCamera => dispatch env ByStartCamera startCamera s
  | ClickCapture => dispatch env ByCapture captureImage s
  | ClickVerify =>
      let a := app (world s) in
      if verifyDisabled a then s
      else dispatch env (ByVerify (uploadedImage a) (cameraImage a))
                    (verifyFaces env (uploadedImage a) (cameraImage a)) s
  | Settle i =>
      match tasks s !! i with
      | Some (Suspended who c k) =>
          match settle env c (world s) with
          | (Settled o, w) =>
              dispatch env who (k o)
                {| world := w; tasks := delete i (tasks s); unhandled := unhandled s |}
          | (Unsettled e, w) =>
              {| world := w; tasks := delete i (tasks s) ++ [Stuck who e];
                 unhandled := unhandled s ++ [e] |}
          end
      | Some (Stuck _ _) => s
      | None => s
      end
  end.

Definition exec (env : Env) (evs : list Event) (s : Sys) : Sys :=
  foldl (fun s ev => step env ev s) s evs.

(** The page as first rendered: nothing uploaded or captured, the video and
    canvas elements mounted, no stream. *)
Definition initialWorld : World :=
  {| app := {| uploadedImage := None; cameraImage := None;
               verificationResult := None; isLoading := false |};
     videoRef := Some {| srcObject := None |};
     canvasRef := Some {| width := 300; height := 300; context2d := true; bitmap := None |};
     streamRef := None;
     liveTracks := ∅;
     nextTrack := 0;
     modelsLoaded := false;
     requests := [];
     resultBy := None |}.

Definition initial : Sys := {| world := initialWorld; tasks := []; unhandled := [] |}.

Definition verify_origin (who : Origin) : bool :=
  match who with
  | ByVerify _ _ => true
  | _ => false
  end.

Definition is_verify (t : Task) : bool := verify_origin (task_origin t).

(** The invocations of [verifyFaces] in flight. *)
Definition verifying (s : Sys) : list Task := filter (fun t => is_verify t = true) (tasks s).

(** ** Vocabulary of the properties *)

(** Every synchronous effect of [p], on every path, satisfies [P]. *)
Fixpoint always (P : forall R : Type, Op R -> Prop) {A : Type} (p : Prog A) : Prop :=
  match p with
  | Ret _ => True
  | Raise _ => True
  | Do op k => P _ op /\ forall o, always P (k o)
  | Await _ k => forall o, always P (k o)
  end.

Definition keeps_flag (R : Type) (op : Op R) : Prop :=
  match op with
  | SetIsLoading _ => False
  | _ => True
  end.

Definition keeps_inputs (R : Type) (op : Op R) : Prop :=
  match op with
  | SetUploadedImage _ | SetCameraImage _ => False
  | _ => True
  end.

Definition keeps_app (R : Type) (op : Op R) : Prop :=
  match op with
  | SetUploadedImage _ | SetCameraImage _
  | SetVerificationResult _ | SetIsLoading _ => False
  | _ => True
  end.

(** [p] ends without awaiting and without touching the busy flag. *)
Fixpoint settled {A : Type} (p : Prog A) : Prop :=
  match p with
  | Ret _ => True
  | Raise _ => True
  | Do op k => keeps_flag _ op /\ forall o, settled (k o)
  | Await _ _ => False
  end.

(** On every path [p] clears the busy flag exactly once, as the last thing
    it does to it, and does not end before. *)
Fixpoint closing {A : Type} (p : Prog A) : Prop :=
  match p with
  | Ret _ => False
  | Raise _ => False
  | Do op k =>
      match op in Op R return (Outcome R -> Prog A) -> Prop with
      | SetIsLoading b => fun k => b = false /\ forall o, settled (k o)
      | _ => fun k => forall o, closing (k o)
      end k
  | Await _ k => forall o, closing (k o)
  end.

(** What is left of a suspended invocation treats the busy flag as its
    handler should: a verification clears it before it ends, every other
    handler leaves it alone.  Nothing is left of a stuck invocation. *)
Definition busy_ok (t : Task) : Prop :=
  match t with
  | Suspended who _ k =>
      if verify_origin who
      then forall o, closing (k o)
      else forall o, always keeps_flag (k o)
  | Stuck _ _ => True
  end.

(** At most one verification is in flight, and the busy flag is set while
    one is. *)
Definition one_at_a_time (s : Sys) : Prop :=
  length (verifying s) <= 1
  /\ (verifying s <> [] -> isLoading (app (world s)) = true)
  /\ Forall busy_ok (tasks s).

(** The pair of inputs on display. *)
Definition inputs (w : World) : option string * option string :=
  (uploadedImage (app w), cameraImage (app w)).

(** A displayed result was written by a verification of the very pair of
    images now on display. *)
Definition attributable (w : World) : Prop :=
  forall r, verificationResult (app w) = Some r ->
    resultBy w = Some (ByVerify (uploadedImage (app w)) (cameraImage (app w))).

(** [p] ends without awaiting, and either leaves the state variables as
    they were or leaves the result cleared. *)
Definition replaces_cleanly (p : Prog unit) : Prop :=
  forall env who w,
    exists o w', advance env who p w = (Finished o, w')
      /\ ((app w' = app w /\ resultBy w' = resultBy w)
          \/ verificationResult (app w') = None).

(** What is left of a suspended invocation writes only what its handler
    may: a verification never an input, the upload handler an input only
    together with a cleared result, the other handlers no state variable. *)
Definition task_shape (t : Task) : Prop :=
  match t with
  | Suspended who _ k =>
      match who with
      | ByVerify _ _ => forall o, always keeps_inputs (k o)
      | ByUpload | ByCapture => forall o, replaces_cleanly (k o)
      | _ => forall o, always keeps_app (k o)
      end
  | Stuck _ _ => True
  end.

(** [p] ends without awaiting. *)
Fixpoint awaitless {A : Type} (p : Prog A) : Prop :=
  match p with
  | Ret _ => True
  | Raise _ => True
  | Do _ k => forall o, awaitless (k o)
  | Await _ _ => False
  end.

Definition is_result_write {R : Type} (op : Op R) : bool :=
  match op with
  | SetVerificationResult _ => true
  | _ => false
  end.

(** On every path its effects can take, [p] does not end before it has
    written a result, and awaits nothing after it has. *)
Fixpoint reports (env : Env) (who : Origin) {A : Type} (p : Prog A) : Prop :=
  match p with
  | Ret _ => False
  | Raise _ => False
  | Do op k =>
      if is_result_write op
      then forall o, awaitless (k o)
      else forall w, reports env who (k (exec_op env who op w).1)
  | Await _ k => forall o, reports env who (k o)
  end.

(** What is left of a suspended verification reports. *)
Definition task_reports (env : Env) (t : Task) : Prop :=
  match t with
  | Suspended who _ k =>
      if verify_origin who then forall o, reports env who (k o) else True
  | Stuck _ _ => True
  end.

(** Up to its next await [p] leaves the result and its author as they
    were, or ends with the result cleared. *)
Definition gentle (env : Env) (who : Origin) (p : Prog unit) : Prop :=
  forall w,
    match advance env who p w with
    | (Finished _, w') =>
        (verificationResult (app w') = verificationResult (app w)
         /\ resultBy w' = resultBy w)
        \/ verificationResult (app w') = None
    | (Blocked _ _, w') =>
        verificationResult (app w') = verificationResult (app w)
        /\ resultBy w' = resultBy w
    end.

(** The result on display is attributable, or it is still the one of the
    state [s0] and a verification is in flight. *)
Definition attributable_or_pending (s0 s : Sys) : Prop :=
  attributable (world s)
  \/ (verifying s <> []
      /\ verificationResult (app (world s)) = verificationResult (app (world s0))
      /\ resultBy (world s) = resultBy (world s0)).

(** A verification in flight was started on the inputs now on display. *)
Definition task_current (w : World) (t : Task) : Prop :=
  match task_origin t with
  | ByVerify u c => (u, c) = inputs w
  | _ => True
  end.

(** No step of the schedule changes an input while a verification is in
    flight. *)
Fixpoint undisturbed (env : Env) (evs : list Event) (s : Sys) : Prop :=
  match evs with
  | [] => True
  | ev :: evs' =>
      (verifying s <> [] -> inputs (world (step env ev s)) = inputs (world s))
      /\ undisturbed env evs' (step env ev s)
  end.

(** The same, computed along a given schedule. *)
Fixpoint undisturbed_check (env : Env) (evs : list Event) (s : Sys) : bool :=
  match evs with
  | [] => true
  | ev :: evs' =>
      (match verifying s with [] => true | _ => false end
       || bool_decide (inputs (world (step env ev s)) = inputs (world s)))
      && undisturbed_check env evs' (step env ev s)
  end.

(** Every live track belongs to the stream [streamRef] holds: at most one
    session is active and none is out of the component's reach. *)
Definition no_leak (w : World) : Prop :=
  forall t, t ∈ liveTracks w ->
    exists stream, streamRef w = Some stream /\ t ∈ getTracks stream.

(** [n] calls of [startCamera] in a row, each one settled before the next. *)
Definition startCameraTimes (env : Env) (n : nat) (w : World) : World :=
  Nat.iter n (fun w => (run env ByStartCamera startCamera w).2) w.

(** A step of the pipeline throws where the [try] of [verifyFaces] sees
    it: the fetch of either image is rejected, or the comparison of the two
    descriptors throws. *)
Definition pipeline_throws (env : Env) (loaded : bool) (u c : string) : Prop :=
  (exists e, fetchImage env u = Throw e)
  \/ (exists iu e, fetchImage env u = Ok iu /\ fetchImage env c = Throw e)
  \/ (exists iu ic du dc e, fetchImage env u = Ok iu /\ fetchImage env c = Ok ic
        /\ detectSingleFace env loaded iu = Ok (Some du)
        /\ detectSingleFace env loaded ic = Ok (Some dc)
        /\ euclideanDistance env (descriptor du) (descriptor dc) = Throw e).

(** Both images are fetched and the detection task of one of them fails
    with [e] (the first, or the second after the first has returned). *)
Definition detection_fails (env : Env) (loaded : bool) (u c : string) (e : JsError) : Prop :=
  exists iu ic, fetchImage env u = Ok iu /\ fetchImage env c = Ok ic
    /\ (detectSingleFace env loaded iu = Throw e
        \/ exists du, detectSingleFace env loaded iu = Ok du
             /\ detectSingleFace env loaded ic = Throw e).

(** ** A concrete environment for the examples *)

(** Every request is granted.  Image [k] has the one-number descriptor
    [k / 10]; before its models are loaded the engine's detection task
    fails; a canvas without pixels encodes to the empty data URL.  No
    example prints a number of magnitude [10^21] or more, the only use of
    [Number_toString]. *)
Definition image_of (url : string) : Outcome HTMLImageElement :=
  if decide (url = "data:ref-a") then Ok 3
  else if decide (url = "data:ref-b") then Ok 9
  else if decide (url = "data:image/jpeg;base64,frame") then Ok 0
  else Throw "fetch failed".

Definition studio : Env :=
  {| loadFromUri := fun _ => Ok tt;
     readAsDataURL := fun f => Ok (Some (fileBytes f));
     getUserMedia := fun _ => Ok 1;
     play := fun _ => Ok tt;
     fetchImage := image_of;
     detectSingleFace := fun loaded img =>
       if loaded
       then Ok (Some {| descriptor := [(of_uint63 (Uint63.of_Z (Z.of_nat img)) / 10)%float] |})
       else Throw "load model before inference";
     euclideanDistance := fun a b =>
       match a, b with
       | [x], [y] => Ok (abs (x - y))%float
       | _, _ => Throw "euclideanDistance: arr1.length !== arr2.length"
       end;
     videoWidth := fun v => match srcObject v with Some _ => 640%N | None => 0%N end;
     videoHeight := fun v => match srcObject v with Some _ => 480%N | None => 0%N end;
     toDataURL := fun c _ =>
       if decide (width c = 0%N \/ height c = 0%N) then "data:,"
       else "data:image/jpeg;base64,frame";
     Number_toString := fun _ => "1e+21" |}.

(** The same environment with an engine that finds no face in any image. *)
Definition blindStudio : Env :=
  {| loadFromUri := loadFromUri studio;
     readAsDataURL := readAsDataURL studio;
     getUserMedia := getUserMedia studio;
     play := play studio;
     fetchImage := fetchImage studio;
     detectSingleFace := fun _ _ => Ok None;
     euclideanDistance := euclideanDistance studio;
     videoWidth := videoWidth studio;
     videoHeight := videoHeight studio;
     toDataURL := toDataURL studio;
     Number_toString := Number_toString studio |}.

Definition fileA : File := {| fileName := "a.png"; fileBytes := "data:ref-a" |}.
Definition fileB : File := {| fileName := "b.png"; fileBytes := "data:ref-b" |}.

(** A world with both images present and the models loaded. *)
Definition readyWorld : World :=
  {| app := {| uploadedImage := Some "data:ref-a";
               cameraImage := Some "data:image/jpeg;base64,frame";
               verificationResult := None; isLoading := false |};
     videoRef := videoRef initialWorld;
     canvasRef := canvasRef initialWorld;
     streamRef := None;
     liveTracks := ∅;
     nextTrack := 0;
     modelsLoaded := true;
     requests := [];
     resultBy := None |}.

(** The same, before the models are loaded. *)
Definition coldWorld : World := with_models false readyWorld.


(** ** The result box *)

(** [s.includes(sub)] *)
Definition includes (s sub : string) : bool :=
  match index 0 sub s with
  | Some _ => true
  | None => false
  end.

Inductive BoxColor := Green | Red.

(** The box under the verify button: rendered when [verificationResult] is
    truthy, green when the text includes ['Match!'], red otherwise. *)
Definition resultBox (verificationResult : option string) : option BoxColor :=
  match truthy verificationResult with
  | Some text => Some (if includes text "Match!" then Green else Red)
  | None => None
  end.

(** The label of the verify button. *)
Definition verifyLabel (a : AppState) : string :=
  if isLoading a then "Verifying..." else "Verify Faces".

(** ** More vocabulary *)

(** On every path its effects can take, [p] ends without a thrown error. *)
Fixpoint safe (env : Env) (who : Origin) {A : Type} (p : Prog A) : Prop :=
  match p with
  | Ret _ => True
  | Raise _ => False
  | Do op k => forall w, safe env who (k (exec_op env who op w).1)
  | Await _ k => forall o, safe env who (k o)
  end.

Definition task_safe (env : Env) (t : Task) : Prop :=
  match t with
  | Suspended who _ k => forall o, safe env who (k o)
  | Stuck _ _ => True
  end.

(** What the page can have as its result: nothing, or one of the four
    texts [verifyFaces] writes inside its [try]. *)
Definition displayable (env : Env) (v : option string) : Prop :=
  v = None \/ v = Some msg_error \/ v = Some msg_no_face
  \/ v = Some msg_no_match \/ exists confidence, v = Some (msg_match env confidence).

(** The effect writes no other result than those. *)
Definition writes_displayable (env : Env) (R : Type) (op : Op R) : Prop :=
  match op with
  | SetVerificationResult v => displayable env v
  | _ => True
  end.

(** The tasks of the page write displayable results only. *)
Definition task_displayable (env : Env) (t : Task) : Prop :=
  match t with
  | Suspended _ _ k => forall o, always (writes_displayable env) (k o)
  | Stuck _ _ => True
  end.

(** No verification in flight means the busy flag is clear. *)
Definition idle_flag (s : Sys) : Prop :=
  verifying s = [] -> isLoading (app (world s)) = false.

(** ** More examples *)


(** The first page after one granted call of [startCamera]. *)
Definition streamingWorld : World :=
  (run studio ByStartCamera startCamera initialWorld).2.



(** The effect returns a value, in every world. *)
Definition infallible (env : Env) (who : Origin) {R : Type} (op : Op R) : Prop :=
  forall w, exists r, (exec_op env who op w).1 = Ok r.

(** The effects that need no element and cannot throw. *)
Definition elementless {R : Type} (op : Op R) : Prop :=
  match op with
  | SetUploadedImage _ | SetCameraImage _ | SetVerificationResult _ | SetIsLoading _
  | StreamRefCurrent | SetStreamRefCurrent _ | VideoRefCurrent | CanvasRefCurrent
  | TrackStop _ | ConsoleLog _ | ConsoleError _ | Alert _ => True
  | _ => False
  end.

(** [e] is the failure of a detection task of the engine. *)
Definition detection_error (env : Env) (e : JsError) : Prop :=
  exists loaded img, detectSingleFace env loaded img = Throw e.

(** Every error that went unhandled is a failed detection, and nothing
    pending can end with a thrown error. *)
Definition sys_safe (env : Env) (s : Sys) : Prop :=
  Forall (detection_error env) (unhandled s) /\ Forall (task_safe env) (tasks s).
(** * Properties *)

(** ** Floating-point order *)

Lemma SFleb_not_SFltb (x y : spec_float) : SFleb x y = true -> SFltb y x = false.
Proof.
  unfold SFleb, SFltb.
  destruct x as [sx|sx| |sx mx ex], y as [sy|sy| |sy my ey]; simpl;
    try discriminate; try reflexivity;
    try (destruct sx; try destruct sy; simpl; congruence);
    try (destruct sy; simpl; congruence).
  rewrite (Z.compare_antisym ex ey).
  change (PosDef.Pos.compare_cont Eq my mx) with (Pos.compare my mx).
  change (PosDef.Pos.compare_cont Eq mx my) with (Pos.compare mx my).
  rewrite (Pos.compare_antisym mx my).
  destruct sx, sy; simpl; try congruence;
    destruct (ex ?= ey)%Z; simpl; try congruence;
    destruct (mx ?= my)%positive; simpl; congruence.
Qed.

(** [x <= y] excludes [y < x] (both are false when either is NaN). *)
Lemma leb_not_ltb (x y : float) : (x <=? y)%float = true -> (y <? x)%float = false.
Proof. rewrite leb_spec, ltb_spec. apply SFleb_not_SFltb. Qed.

(** ** One call of [verifyFaces] *)

Arguments toFixed : simpl never.
Arguments msg_match : simpl never.
Arguments threshold : simpl never.

(** A call with a missing (null or empty) image ends at once: one write of
    the message, no await, no request. *)
Lemma verifyFaces_falsy (env : Env) (who : Origin) (w : World) (u c : option string) :
  truthy u = None \/ truthy c = None ->
  advance env who (verifyFaces env u c) w
  = (Finished (Ok tt), with_result (Some msg_missing) who w).
Proof.
  intros H. unfold verifyFaces.
  destruct H as [H|H]; rewrite H; [|destruct (truthy u)]; reflexivity.
Qed.

Lemma run_verifyFaces_falsy (env : Env) (who : Origin) (w : World) (u c : option string) :
  truthy u = None \/ truthy c = None ->
  run env who (verifyFaces env u c) w
  = (Returned (Ok tt), with_result (Some msg_missing) who w).
Proof.
  intros H. unfold verifyFaces.
  destruct H as [H|H]; rewrite H; [|destruct (truthy u)]; reflexivity.
Qed.

(** The world a call leaves when both images yield a descriptor. *)
Lemma run_verifyFaces_compared (env : Env) (who : Origin) (w : World)
    (u' c' : option string) (u c : string) (iu ic : HTMLImageElement)
    (du dc : Detection) (d : float) :
  truthy u' = Some u -> truthy c' = Some c ->
  fetchImage env u = Ok iu -> fetchImage env c = Ok ic ->
  detectSingleFace env (modelsLoaded w) iu = Ok (Some du) ->
  detectSingleFace env (modelsLoaded w) ic = Ok (Some dc) ->
  euclideanDistance env (descriptor du) (descriptor dc) = Ok d ->
  let verdict :=
    if (d <? threshold)%float
    then msg_match env ((1 - d / threshold) * 100)%float
    else msg_no_match in
  exists w', run env who (verifyFaces env u' c') w = (Returned (Ok tt), w')
    /\ verificationResult (app w') = Some verdict
    /\ isLoading (app w') = false.
Proof.
  intros Hu Hc Hfu Hfc Hdu Hdc Hd verdict.
  unfold verifyFaces. rewrite Hu, Hc. cbn.
  rewrite Hfu. cbn. rewrite Hfc. cbn. rewrite Hdu. cbn. rewrite Hdc. cbn.
  rewrite Hd. cbn. eexists. split; [reflexivity|]. split; reflexivity.
Qed.

(** C1. When both images yield a face descriptor, the result is decided by
    the distance [d] alone, against the threshold 0.6: below it the result
    is the match message with confidence [(1 - d / 0.6) * 100] printed to
    one decimal (50.0% at 0.3, 100.0% at 0), and from 0.6 on, 0.6 included,
    it is the no-match message. *)
Theorem verifyFaces_decision (env : Env) (who : Origin) (w : World)
    (u' c' : option string) (u c : string) (iu ic : HTMLImageElement)
    (du dc : Detection) (d : float) :
  truthy u' = Some u -> truthy c' = Some c ->
  fetchImage env u = Ok iu -> fetchImage env c = Ok ic ->
  detectSingleFace env (modelsLoaded w) iu = Ok (Some du) ->
  detectSingleFace env (modelsLoaded w) ic = Ok (Some dc) ->
  euclideanDistance env (descriptor du) (descriptor dc) = Ok d ->
  let result := verificationResult (app (run env who (verifyFaces env u' c') w).2) in
  result = Some (if (d <? 0.6)%float
                 then "Match! Confidence: "
                      +:+ toFixed env ((1 - d / 0.6) * 100)%float 1 +:+ "%"
                 else "No Match - Different persons detected")
  /\ ((0.6 <=? d)%float = true -> result = Some "No Match - Different persons detected")
  /\ (d = 0.6%float -> result = Some "No Match - Different persons detected")
  /\ (d = 0.59999%float -> result = Some "Match! Confidence: 0.0%")
  /\ (d = 0.3%float -> result = Some "Match! Confidence: 50.0%")
  /\ (d = 0%float -> result = Some "Match! Confidence: 100.0%").
Proof.
  intros Hu Hc Hfu Hfc Hdu Hdc Hd result.
  destruct (run_verifyFaces_compared env who w u' c' u c iu ic du dc d
              Hu Hc Hfu Hfc Hdu Hdc Hd) as (w' & Hrun & Hres & _).
  assert (Hgen : result = Some (if (d <? threshold)%float
                                then msg_match env ((1 - d / threshold) * 100)%float
                                else msg_no_match)).
  { unfold result. rewrite Hrun. exact Hres. }
  split; [exact Hgen|].
  split; [|repeat split; intros ->; rewrite Hgen; vm_compute; reflexivity].
  intros Hle. rewrite Hgen.
  change 0.6%float with threshold in Hle.
  rewrite (leb_not_ltb _ _ Hle). reflexivity.
Qed.

Lemma verifyFaces_decision_witness :
  verificationResult
    (app (run studio (ByVerify None None)
            (verifyFaces studio (Some "data:ref-a") (Some "data:image/jpeg;base64,frame"))
            readyWorld).2)
  = Some "Match! Confidence: 50.0%".
Proof.
  refine (proj1 (proj2 (proj2 (proj2 (proj2
    (verifyFaces_decision studio (ByVerify None None) readyWorld
       (Some "data:ref-a") (Some "data:image/jpeg;base64,frame")
       "data:ref-a" "data:image/jpeg;base64,frame" 3 0
       {| descriptor := [0.3%float] |} {| descriptor := [0%float] |} 0.3%float
       _ _ _ _ _ _ _))))) _); vm_compute; reflexivity.
Defined.

(** C3. When at least one of the two images is absent, the call ends at
    once (it reaches no await) with the missing-input message, and issues
    no request at all: no fetch, no detection, no descriptor comparison
    is added to the request log. *)
Theorem verifyFaces_missing_input (env : Env) (who : Origin) (w : World)
    (u c : option string) :
  u = None \/ c = None ->
  exists w',
    advance env who (verifyFaces env u c) w = (Finished (Ok tt), w')
    /\ run env who (verifyFaces env u c) w = (Returned (Ok tt), w')
    /\ verificationResult (app w') = Some msg_missing
    /\ requests w' = requests w.
Proof.
  intros H.
  assert (Hf : truthy u = None \/ truthy c = None)
    by (destruct H as [-> | ->]; [left|right]; reflexivity).
  exists (with_result (Some msg_missing) who w).
  rewrite verifyFaces_falsy, run_verifyFaces_falsy by exact Hf.
  repeat split; reflexivity.
Qed.

Lemma verifyFaces_missing_input_witness :
  exists w',
    advance studio (ByVerify None (Some "data:image/jpeg;base64,frame"))
      (verifyFaces studio None (Some "data:image/jpeg;base64,frame")) readyWorld
    = (Finished (Ok tt), w')
    /\ run studio (ByVerify None (Some "data:image/jpeg;base64,frame"))
         (verifyFaces studio None (Some "data:image/jpeg;base64,frame")) readyWorld
       = (Returned (Ok tt), w')
    /\ verificationResult (app w') = Some msg_missing
    /\ requests w' = requests readyWorld.
Proof.
  apply (verifyFaces_missing_input studio
           (ByVerify None (Some "data:image/jpeg;base64,frame")) readyWorld
           None (Some "data:image/jpeg;base64,frame")).
  left. reflexivity.
Defined.

(** The match message starts with its fixed prefix. *)
Lemma msg_match_prefix (env : Env) (confidence : float) :
  exists rest, msg_match env confidence = String "M"%char rest.
Proof. unfold msg_match. eexists. reflexivity. Qed.

(** C4. With both images present and fetched, when both detections return
    and one of them found no face, the result is the no-face message and
    no descriptor comparison is requested.  Once the first detection has
    found no face no comparison is requested whatever the second detection
    does, and the result is neither a match nor the no-match message;
    the one other course is a second detection that fails: the call then
    stays at its [await] and the result is left as it was, unwritten by
    this call. *)
Theorem verifyFaces_no_face (env : Env) (who : Origin) (w : World)
    (u' c' : option string) (u c : string) (iu ic : HTMLImageElement)
    (du : option Detection) :
  truthy u' = Some u -> truthy c' = Some c ->
  fetchImage env u = Ok iu -> fetchImage env c = Ok ic ->
  detectSingleFace env (modelsLoaded w) iu = Ok du ->
  let w' := (run env who (verifyFaces env u' c') w).2 in
  (forall dc, detectSingleFace env (modelsLoaded w) ic = Ok dc ->
     du = None \/ dc = None ->
     verificationResult (app w') = Some msg_no_face
     /\ requests w' = requests w ++ [ReqFetchImage u; ReqFetchImage c;
                                     ReqDetectSingleFace iu; ReqDetectSingleFace ic])
  /\ (du = None ->
      requests w' = requests w ++ [ReqFetchImage u; ReqFetchImage c;
                                   ReqDetectSingleFace iu; ReqDetectSingleFace ic]
      /\ ((verificationResult (app w') <> Some msg_no_match
           /\ forall confidence,
              verificationResult (app w') <> Some (msg_match env confidence))
          \/ (exists e, detectSingleFace env (modelsLoaded w) ic = Throw e
                /\ run env who (verifyFaces env u' c') w = (Hung e, w')
                /\ verificationResult (app w') = verificationResult (app w)
                /\ resultBy w' = resultBy w))).
Proof.
  intros Hu Hc Hfu Hfc Hdu w'.
  assert (Hnone : forall dc, detectSingleFace env (modelsLoaded w) ic = Ok dc ->
            du = None \/ dc = None ->
            verificationResult (app w') = Some msg_no_face
            /\ requests w' = requests w ++ [ReqFetchImage u; ReqFetchImage c;
                                            ReqDetectSingleFace iu; ReqDetectSingleFace ic]).
  { intros dc Hdc Hor. unfold w', verifyFaces. rewrite Hu, Hc. cbn.
    rewrite Hfu. cbn. rewrite Hfc. cbn. rewrite Hdu. cbn. rewrite Hdc.
    destruct du as [du|], dc as [dc|]; cbn;
      try (destruct Hor; discriminate);
      rewrite <- !app_assoc; split; reflexivity. }
  split; [exact Hnone|].
  intros ->.
  destruct (detectSingleFace env (modelsLoaded w) ic) as [dc|e] eqn:Hdc.
  - destruct (Hnone dc eq_refl) as [Hres Hreq]; [left; reflexivity|].
    split; [exact Hreq|]. left. rewrite Hres. split; [discriminate|].
    intros confidence. destruct (msg_match_prefix env confidence) as [rest ->].
    discriminate.
  - assert (Hrun : run env who (verifyFaces env u' c') w
                   = (Hung e, log_request (ReqDetectSingleFace ic)
                                (log_request (ReqDetectSingleFace iu)
                                   (log_request (ReqFetchImage c)
                                      (log_request (ReqFetchImage u)
                                         (with_app {| uploadedImage := uploadedImage (app w);
                                                      cameraImage := cameraImage (app w);
                                                      verificationResult := verificationResult (app w);
                                                      isLoading := true |} w)))))).
    { unfold verifyFaces. rewrite Hu, Hc. cbn.
      rewrite Hfu. cbn. rewrite Hfc. cbn. rewrite Hdu. cbn. rewrite Hdc.
      reflexivity. }
    unfold w'. rewrite Hrun. cbn. split; [rewrite <- !app_assoc; reflexivity|].
    right. exists e. repeat split; reflexivity.
Qed.

Lemma verifyFaces_no_face_witness :
  verificationResult
    (app (run blindStudio (ByVerify None None)
            (verifyFaces blindStudio (Some "data:ref-a") (Some "data:ref-b"))
            readyWorld).2)
  = Some msg_no_face.
Proof.
  refine (proj1 (proj1
    (verifyFaces_no_face blindStudio (ByVerify None None) readyWorld
       (Some "data:ref-a") (Some "data:ref-b") "data:ref-a" "data:ref-b" 3 9 None
       _ _ _ _ _) None _ _)); try (vm_compute; reflexivity).
  left. reflexivity.
Defined.

(** How a call with both images present completes.  It returns normally
    with the busy flag cleared, and with the verification-error message
    when a fetch or the comparison has thrown; or it stays for ever at the
    [await] of a detection that failed, and then it has written no result
    and the busy flag is still set. *)
Lemma run_verifyFaces_completes (env : Env) (who : Origin) (w : World)
    (u' c' : option string) (u c : string) :
  truthy u' = Some u -> truthy c' = Some c ->
  exists cpl w', run env who (verifyFaces env u' c') w = (cpl, w')
    /\ match cpl with
       | Returned o =>
           o = Ok tt
           /\ isLoading (app w') = false
           /\ (forall e, ~ detection_fails env (modelsLoaded w) u c e)
           /\ (pipeline_throws env (modelsLoaded w) u c ->
               verificationResult (app w') = Some msg_error)
       | Hung e =>
           detection_fails env (modelsLoaded w) u c e
           /\ isLoading (app w') = true
           /\ verificationResult (app w') = verificationResult (app w)
           /\ resultBy w' = resultBy w
       end.
Proof.
  intros Hu Hc. unfold verifyFaces, pipeline_throws, detection_fails.
  rewrite Hu, Hc. cbn.
  destruct (fetchImage env u) as [iu|e1] eqn:Hfu; cbn.
  2:{ do 2 eexists. split; [reflexivity|]. repeat split; try reflexivity.
      intros e (? & ? & [=] & _). }
  destruct (fetchImage env c) as [ic|e2] eqn:Hfc; cbn.
  2:{ do 2 eexists. split; [reflexivity|]. repeat split; try reflexivity.
      intros e (? & ? & _ & [=] & _). }
  destruct (detectSingleFace env (modelsLoaded w) iu) as [du|e3] eqn:Hdu; cbn.
  2:{ do 2 eexists. split; [reflexivity|]. cbn.
      split; [exists iu, ic; auto|]. repeat split; reflexivity. }
  destruct (detectSingleFace env (modelsLoaded w) ic) as [dc|e4] eqn:Hdc; cbn.
  2:{ do 2 eexists. split; [reflexivity|]. cbn.
      split; [exists iu, ic; eauto 6|]. repeat split; reflexivity. }
  assert (Hnofail : forall e,
            ~ (exists iu0 ic0, Ok iu = Ok iu0 /\ Ok ic = Ok ic0
                 /\ (detectSingleFace env (modelsLoaded w) iu0 = Throw e
                     \/ exists du0, detectSingleFace env (modelsLoaded w) iu0 = Ok du0
                          /\ detectSingleFace env (modelsLoaded w) ic0 = Throw e))).
  { intros e (iu0 & ic0 & [= <-] & [= <-] & [H | (du0 & _ & H)]); congruence. }
  destruct du as [du|], dc as [dc|]; cbn;
    try (do 2 eexists; split; [reflexivity|];
         split; [reflexivity|]; split; [reflexivity|]; split; [exact Hnofail|];
         intros H; decompose [or ex and] H; congruence).
  destruct (euclideanDistance env (descriptor du) (descriptor dc)) as [d|e5] eqn:Hd; cbn.
  - do 2 eexists. split; [reflexivity|].
    split; [reflexivity|]. split; [reflexivity|]. split; [exact Hnofail|].
    intros H; decompose [or ex and] H; congruence.
  - do 2 eexists. split; [reflexivity|].
    split; [reflexivity|]. split; [reflexivity|]. split; [exact Hnofail|].
    intros _. reflexivity.
Qed.

(** C5.  The page with both images on display and the models not yet
    loaded; the user clicks Verify and the two fetches are answered.  The
    detection task fails, and the failure never reaches the [catch] of
    [verifyFaces]: the call stays at its [await], no verification-error
    result is written, the busy flag stays set (the verify button stays
    disabled, so a further click does nothing) and the error is reported
    as an unhandled rejection.  Run on its own, the same call does not
    return. *)
Theorem verifyFaces_detection_failure_uncaught :
  let s0 := {| world := coldWorld; tasks := []; unhandled := [] |} in
  let s := exec studio [ClickVerify; Settle 0; Settle 0; Settle 0] s0 in
  tasks s = [Stuck (ByVerify (Some "data:ref-a") (Some "data:image/jpeg;base64,frame"))
                   "load model before inference"]
  /\ unhandled s = ["load model before inference"]
  /\ verificationResult (app (world s)) = None
  /\ isLoading (app (world s)) = true
  /\ step studio ClickVerify s = s
  /\ step studio (Settle 0) s = s
  /\ (run studio (ByVerify None None)
        (verifyFaces studio (Some "data:ref-a") (Some "data:image/jpeg;base64,frame"))
        coldWorld).1
     = Hung "load model before inference".
Proof. vm_compute. repeat split; reflexivity. Qed.

(** X15. A call of [verifyFaces] never returns a thrown error, whatever the
    environment answers.  A rejected fetch and a throwing comparison are
    caught: the call returns with the verification-error message.  The busy
    flag is clear whenever the call returns: every path that set it clears
    it, and the early return never sets it. *)
Theorem verifyFaces_caught_failures (env : Env) (who : Origin) (w : World)
    (u' c' : option string) :
  exists cpl w', run env who (verifyFaces env u' c') w = (cpl, w')
    /\ (forall e, cpl <> Returned (Throw e))
    /\ (forall u c, truthy u' = Some u -> truthy c' = Some c ->
          pipeline_throws env (modelsLoaded w) u c ->
          cpl = Returned (Ok tt)
          /\ verificationResult (app w') = Some msg_error
          /\ isLoading (app w') = false)
    /\ (cpl = Returned (Ok tt) ->
        is_Some (truthy u') /\ is_Some (truthy c') \/ isLoading (app w) = false ->
        isLoading (app w') = false).
Proof.
  destruct (truthy u') as [u|] eqn:Hu; [destruct (truthy c') as [c|] eqn:Hc|].
  - destruct (run_verifyFaces_completes env who w u' c' u c Hu Hc)
      as (cpl & w' & Hrun & Hcpl).
    exists cpl, w'. split; [exact Hrun|].
    destruct cpl as [o|e]; cbn in Hcpl.
    + destruct Hcpl as (-> & Hflag & Hnofail & Herr).
      split; [discriminate|]. split.
      * intros u0 c0 [= <-] [= <-] Hthrows. auto.
      * intros _ _. exact Hflag.
    + destruct Hcpl as (Hfail & _).
      split; [discriminate|]. split; [|discriminate].
      intros u0 c0 [= <-] [= <-] Hthrows. exfalso.
      destruct Hfail as (iu & ic & Hfu & Hfc & Hdet).
      destruct Hthrows as [(e1 & H) | [(iu1 & e1 & _ & H) | (iu1 & ic1 & du & dc & e1 & Hfu1 & Hfc1 & Hdu & Hdc & _)]];
        try congruence.
      rewrite Hfu in Hfu1. rewrite Hfc in Hfc1.
      injection Hfu1 as <-. injection Hfc1 as <-.
      destruct Hdet as [H | (du0 & _ & H)]; congruence.
  - exists (Returned (Ok tt)), (with_result (Some msg_missing) who w).
    split; [apply run_verifyFaces_falsy; right; exact Hc|].
    split; [discriminate|].
    split; [intros ? ? _ [=]|].
    intros _ [[_ [x [=]]] | H]; exact H.
  - exists (Returned (Ok tt)), (with_result (Some msg_missing) who w).
    split; [apply run_verifyFaces_falsy; left; exact Hu|].
    split; [discriminate|].
    split; [intros ? ? [=]|].
    intros _ [[[x [=]] _] | H]; exact H.
Qed.

(** C8, as the code has it.  [verifyFaces] does not consult the loading
    state, and no outcome of it is a model-not-ready one.  Whether or not
    the models are loaded, a call with both images present sets the busy
    flag and suspends at the fetch of the first image, with the same rest
    to run; once both fetches are answered it requests the first
    detection; and the result it leaves is the one displayed before or one
    of the verification-error, no-face, no-match and match messages. *)
Theorem verifyFaces_ignores_loading (env : Env) (who : Origin) (w : World)
    (u' c' : option string) (u c : string) (iu ic : HTMLImageElement) :
  truthy u' = Some u -> truthy c' = Some c ->
  fetchImage env u = Ok iu -> fetchImage env c = Ok ic ->
  (exists k w1, forall loaded,
      advance env who (verifyFaces env u' c') (with_models loaded w)
      = (Blocked (FetchImage u) k, with_models loaded w1)
      /\ isLoading (app w1) = true
      /\ verificationResult (app w1) = verificationResult (app w)
      /\ requests w1 = requests w ++ [ReqFetchImage u])
  /\ forall loaded,
       let w' := (run env who (verifyFaces env u' c') (with_models loaded w)).2 in
       (exists rest, requests w' = requests w ++ [ReqFetchImage u; ReqFetchImage c;
                                                  ReqDetectSingleFace iu] ++ rest)
       /\ (verificationResult (app w') = verificationResult (app w)
           \/ verificationResult (app w') = Some msg_error
           \/ verificationResult (app w') = Some msg_no_face
           \/ verificationResult (app w') = Some msg_no_match
           \/ exists confidence,
                verificationResult (app w') = Some (msg_match env confidence)).
Proof.
  intros Hu Hc Hfu Hfc. split.
  - unfold verifyFaces. rewrite Hu, Hc. eexists.
    exists (log_request (ReqFetchImage u)
              (with_app {| uploadedImage := uploadedImage (app w);
                           cameraImage := cameraImage (app w);
                           verificationResult := verificationResult (app w);
                           isLoading := true |} w)).
    intros loaded. split; [reflexivity|]. repeat split; reflexivity.
  - intros loaded w'. unfold w', verifyFaces. rewrite Hu, Hc. cbn.
    rewrite Hfu. cbn. rewrite Hfc. cbn.
    destruct (detectSingleFace env loaded iu) as [du|e3]; cbn.
    2:{ split; [exists []; rewrite <- !app_assoc; reflexivity|]. left. reflexivity. }
    destruct (detectSingleFace env loaded ic) as [dc|e4]; cbn.
    2:{ split; [eexists; rewrite <- !app_assoc; reflexivity|]. left. reflexivity. }
    destruct du as [du|], dc as [dc|]; cbn;
      try (split; [eexists; rewrite <- !app_assoc; reflexivity|];
           right; right; left; reflexivity).
    destruct (euclideanDistance env (descriptor du) (descriptor dc)) as [d|e5]; cbn.
    + split; [eexists; rewrite <- !app_assoc; reflexivity|].
      destruct (d <? threshold)%float; eauto 10.
    + split; [eexists; rewrite <- !app_assoc; reflexivity|].
      right; left; reflexivity.
Qed.

Lemma verifyFaces_ignores_loading_witness :
  exists rest,
    requests (run studio (ByVerify None None)
                (verifyFaces studio (Some "data:ref-a") (Some "data:image/jpeg;base64,frame"))
                (with_models false readyWorld)).2
    = requests readyWorld ++ [ReqFetchImage "data:ref-a";
                              ReqFetchImage "data:image/jpeg;base64,frame";
                              ReqDetectSingleFace 3] ++ rest.
Proof.
  refine (proj1 (proj2
    (verifyFaces_ignores_loading studio (ByVerify None None) readyWorld
       (Some "data:ref-a") (Some "data:image/jpeg;base64,frame")
       "data:ref-a" "data:image/jpeg;base64,frame" 3 0 _ _ _ _) false));
    vm_compute; reflexivity.
Defined.

(** C8 as stated fails: the page is mounted and the loading of the models
    is still pending when the user verifies.  The call is not rejected: it
    fetches both images and requests the detection, whose task fails; from
    then on the call stays at its [await] with no result and the busy flag
    set, also after the models have been loaded. *)
Lemma verify_while_models_load :
  let s := exec studio [Mount; ChangeFile [fileA]; Settle 1;
                        ClickStartCamera; Settle 1; Settle 1; ClickCapture;
                        ClickVerify; Settle 1; Settle 1; Settle 1] initial in
  let s' := step studio (Settle 0) s in
  modelsLoaded (world s) = false
  /\ length (tasks s) = 2
  /\ verifying s
     = [Stuck (ByVerify (Some "data:ref-a") (Some "data:image/jpeg;base64,frame"))
              "load model before inference"]
  /\ requests (world s)
     = [ReqLoadModels "models"; ReqReadAsDataURL fileA; ReqGetUserMedia; ReqPlay;
        ReqFetchImage "data:ref-a"; ReqFetchImage "data:image/jpeg;base64,frame";
        ReqDetectSingleFace 3]
  /\ app (world s) =
     {| uploadedImage := Some "data:ref-a";
        cameraImage := Some "data:image/jpeg;base64,frame";
        verificationResult := None;
        isLoading := true |}
  /\ modelsLoaded (world s') = true
  /\ tasks s' = verifying s
  /\ app (world s') = app (world s)
  /\ step studio ClickVerify s' = s'.
Proof. vm_compute. repeat split; reflexivity. Qed.

(** ** Upload and capture *)

(** C10. An upload event with an empty file list changes nothing: the
    handler ends at once and the world (uploaded image, captured image,
    result and all the rest) is the one before; no read is pending. *)
Theorem handleImageUpload_no_file (env : Env) (who : Origin) (w : World) (s : Sys) :
  advance env who (handleImageUpload []) w = (Finished (Ok tt), w)
  /\ run env who (handleImageUpload []) w = (Returned (Ok tt), w)
  /\ step env (ChangeFile []) s = s.
Proof.
  split; [reflexivity|]. split; [reflexivity|].
  destruct s. reflexivity.
Qed.

(** C9, as the code has it.  [captureImage] looks at the mounted elements
    only, never at the stream.  It does nothing when the canvas or the
    video element is not mounted; it leaves the snapshot and the result as
    they were when the canvas gives no 2D context; in every other case,
    with or without an active stream, it stores the encoding of the canvas
    (sized to the video's intrinsic dimensions, the current frame drawn)
    as the snapshot and clears the result. *)
Theorem captureImage_effect (env : Env) (who : Origin) (w : World) :
  let w' := (run env who captureImage w).2 in
  (canvasRef w = None \/ videoRef w = None -> w' = w)
  /\ (forall c v, canvasRef w = Some c -> videoRef w = Some v ->
        context2d c = false ->
        cameraImage (app w') = cameraImage (app w)
        /\ verificationResult (app w') = verificationResult (app w))
  /\ (forall c v, canvasRef w = Some c -> videoRef w = Some v ->
        context2d c = true ->
        cameraImage (app w')
        = Some (toDataURL env
                  {| width := videoWidth env v; height := videoHeight env v;
                     context2d := true; bitmap := Some v |} "image/jpeg")
        /\ verificationResult (app w') = None).
Proof.
  intros w'. unfold w', captureImage. split; [|split].
  - cbn. intros [H|H]; rewrite H; [|destruct (canvasRef w)]; reflexivity.
  - intros c v Hc Hv Hctx.
    destruct w; cbn in Hc, Hv; subst.
    destruct c; cbn in Hctx; subst. cbn. split; reflexivity.
  - intros c v Hc Hv Hctx.
    destruct w; cbn in Hc, Hv; subst.
    destruct c; cbn in Hctx; subst. cbn. split; reflexivity.
Qed.

(** C9 as stated fails: on the page as first rendered no stream was ever
    requested, and a click on Capture stores the encoding of an empty
    canvas as the snapshot. *)
Lemma capture_without_stream :
  streamRef initialWorld = None
  /\ srcObject <$> videoRef initialWorld = Some None
  /\ cameraImage (app initialWorld) = None
  /\ cameraImage (app (world (step studio ClickCapture initial))) = Some "data:,".
Proof. vm_compute. repeat split; reflexivity. Qed.

(** ** What a handler can change *)

Lemma exec_op_keeps_flag (env : Env) (who : Origin) (R : Type) (op : Op R) (w : World) :
  keeps_flag R op -> isLoading (app (exec_op env who op w).2) = isLoading (app w).
Proof.
  destruct op; cbn; try contradiction; intros _;
    unfold on_video, on_canvas;
    try destruct (canvasRef w); try destruct (videoRef w); reflexivity.
Qed.

Lemma exec_op_keeps_inputs (env : Env) (who : Origin) (R : Type) (op : Op R) (w : World) :
  keeps_inputs R op -> inputs (exec_op env who op w).2 = inputs w.
Proof.
  destruct op; cbn; try contradiction; intros _;
    unfold on_video, on_canvas;
    try destruct (canvasRef w); try destruct (videoRef w); reflexivity.
Qed.

Lemma exec_op_keeps_app (env : Env) (who : Origin) (R : Type) (op : Op R) (w : World) :
  keeps_app R op ->
  (app (exec_op env who op w).2, resultBy (exec_op env who op w).2) = (app w, resultBy w).
Proof.
  destruct op; cbn; try contradiction; intros _;
    unfold on_video, on_canvas;
    try destruct (canvasRef w); try destruct (videoRef w); reflexivity.
Qed.

(** An effect leaves the result and its author alone, or makes the running
    invocation the author. *)
Lemma exec_op_result (env : Env) (who : Origin) (R : Type) (op : Op R) (w : World) :
  (verificationResult (app (exec_op env who op w).2) = verificationResult (app w)
   /\ resultBy (exec_op env who op w).2 = resultBy w)
  \/ resultBy (exec_op env who op w).2 = Some who.
Proof.
  destruct op; cbn; try (right; reflexivity);
    unfold on_video, on_canvas;
    try destruct (canvasRef w); try destruct (videoRef w);
    left; split; reflexivity.
Qed.

(** The answer of an awaited call never touches the state variables. *)
Lemma settle_app (env : Env) (R : Type) (c : Async R) (w : World) :
  app (settle env c w).2 = app w /\ resultBy (settle env c w).2 = resultBy w.
Proof.
  destruct c; cbn;
    try destruct (loadFromUri env url);
    try destruct (getUserMedia env (length (requests w)));
    split; reflexivity.
Qed.

Section Frames.

Variables (env : Env) (who : Origin).
Variables (X : Type) (f : World -> X) (P : forall R : Type, Op R -> Prop).
Hypothesis f_log : forall r w, f (log_request r w) = f w.
Hypothesis f_op : forall R (op : Op R) w, P R op -> f (exec_op env who op w).2 = f w.

(** A program all of whose effects preserve [f] preserves [f] up to its
    next await, and what is left of it is such a program again. *)
Lemma advance_always (A : Type) (p : Prog A) (w : World) :
  always P p ->
  match advance env who p w with
  | (Finished _, w') => f w' = f w
  | (Blocked _ k, w') => f w' = f w /\ forall o, always P (k o)
  end.
Proof.
  revert w. induction p as [a|e|R op k IH|R c k IH]; intros w Hp; cbn in *.
  - reflexivity.
  - reflexivity.
  - destruct Hp as [Hop Hk].
    pose proof (f_op R op w Hop) as Hw.
    destruct (exec_op env who op w) as [o w1]. cbn in Hw.
    specialize (IH o w1 (Hk o)).
    destruct (advance env who (k o) w1) as [[o'|R' c' k'] w2].
    + congruence.
    + destruct IH as [IH1 IH2]. split; [congruence|exact IH2].
  - split; [apply f_log|exact Hp].
Qed.

End Frames.

Section Flag.

Variables (env : Env) (who : Origin).

Lemma advance_settled (A : Type) (p : Prog A) (w : World) :
  settled p ->
  match advance env who p w with
  | (Finished _, w') => isLoading (app w') = isLoading (app w)
  | (Blocked _ _, _) => False
  end.
Proof.
  revert w. induction p as [a|e|R op k IH|R c k IH]; intros w Hp; cbn in *.
  - reflexivity.
  - reflexivity.
  - destruct Hp as [Hop Hk].
    pose proof (exec_op_keeps_flag env who R op w Hop) as Hw.
    destruct (exec_op env who op w) as [o w1]. cbn in Hw.
    specialize (IH o w1 (Hk o)).
    destruct (advance env who (k o) w1) as [[o'|R' c' k'] w2]; [congruence|exact IH].
  - exact Hp.
Qed.

(** A closing program keeps the busy flag as it is while it awaits, and has
    cleared it when it ends. *)
Lemma advance_closing (A : Type) (p : Prog A) (w : World) :
  closing p ->
  match advance env who p w with
  | (Finished _, w') => isLoading (app w') = false
  | (Blocked _ k, w') =>
      isLoading (app w') = isLoading (app w) /\ forall o, closing (k o)
  end.
Proof.
  revert w. induction p as [a|e|R op k IH|R c k IH]; intros w Hp; cbn in Hp.
  - contradiction.
  - contradiction.
  - cbn [advance]. revert k IH Hp.
    destruct op; intros k IH Hp;
      try (lazymatch goal with
           | |- context [exec_op env who ?op w] =>
               pose proof (exec_op_keeps_flag env who _ op w I) as Hw;
               destruct (exec_op env who op w) as [o w1]; cbn in Hw;
               specialize (IH o w1 (Hp o));
               destruct (advance env who (k o) w1) as [[o'|R' c' k'] w2];
               [exact IH|destruct IH as [IH1 IH2]; split; [congruence|exact IH2]]
           end).
    destruct Hp as [-> Hk]. cbn.
    pose proof (advance_settled A (k (Ok tt))
                  (with_app {| uploadedImage := uploadedImage (app w);
                               cameraImage := cameraImage (app w);
                               verificationResult := verificationResult (app w);
                               isLoading := false |} w) (Hk (Ok tt))) as Hs.
    destruct (advance env who (k (Ok tt)) _) as [[o'|R' c' k'] w2];
      [exact Hs|contradiction].
  - split; [reflexivity|exact Hp].
Qed.

(** Whatever a program does, when it stops the result and its author are
    as before, or the author is the running invocation. *)
Lemma advance_result (A : Type) (p : Prog A) (w : World) :
  (verificationResult (app (advance env who p w).2) = verificationResult (app w)
   /\ resultBy (advance env who p w).2 = resultBy w)
  \/ resultBy (advance env who p w).2 = Some who.
Proof.
  revert w. induction p as [a|e|R op k IH|R c k IH]; intros w; cbn.
  - left. split; reflexivity.
  - left. split; reflexivity.
  - pose proof (exec_op_result env who R op w) as Hw.
    destruct (exec_op env who op w) as [o w1]. cbn in Hw.
    destruct (IH o w1) as [[H1 H2]|H]; [|right; exact H].
    destruct Hw as [[H3 H4]|H3]; [left; split; congruence|right; congruence].
  - left. split; reflexivity.
Qed.

(** Only [setVerificationResult] writes the result. *)
Lemma exec_op_unwritten (R : Type) (op : Op R) (w : World) :
  is_result_write op = false ->
  verificationResult (app (exec_op env who op w).2) = verificationResult (app w)
  /\ resultBy (exec_op env who op w).2 = resultBy w.
Proof.
  destruct op; cbn; try discriminate; intros _;
    unfold on_video, on_canvas;
    try destruct (canvasRef w); try destruct (videoRef w);
    split; reflexivity.
Qed.

Lemma exec_op_written (R : Type) (op : Op R) (w : World) :
  is_result_write op = true -> resultBy (exec_op env who op w).2 = Some who.
Proof. destruct op; cbn; try discriminate. reflexivity. Qed.

Lemma advance_awaitless (A : Type) (p : Prog A) (w : World) :
  awaitless p -> exists o w', advance env who p w = (Finished o, w').
Proof.
  revert w. induction p as [a|e|R op k IH|R c k IH]; intros w Hp; cbn in *.
  - eauto.
  - eauto.
  - destruct (exec_op env who op w) as [o w1]. apply IH, Hp.
  - contradiction.
Qed.

(** A reporting program has not written when it awaits, and is the author
    of the result when it ends. *)
Lemma advance_reports (A : Type) (p : Prog A) (w : World) :
  reports env who p ->
  match advance env who p w with
  | (Finished _, w') => resultBy w' = Some who
  | (Blocked _ k, w') =>
      (verificationResult (app w') = verificationResult (app w)
       /\ resultBy w' = resultBy w)
      /\ forall o, reports env who (k o)
  end.
Proof.
  revert w. induction p as [a|e|R op k IH|R c k IH]; intros w Hp; cbn in Hp.
  - contradiction.
  - contradiction.
  - cbn [advance]. destruct (is_result_write op) eqn:Hop.
    + pose proof (exec_op_written R op w Hop) as Hw.
      destruct (exec_op env who op w) as [o w1]. cbn in Hw.
      destruct (advance_awaitless A (k o) w1 (Hp o)) as (o' & w2 & Hadv).
      pose proof (advance_result A (k o) w1) as Hres.
      rewrite Hadv in Hres |- *. cbn in Hres.
      destruct Hres as [[_ H]|H]; congruence.
    + pose proof (exec_op_unwritten R op w Hop) as [Hw1 Hw2].
      specialize (Hp w).
      destruct (exec_op env who op w) as [o w1]. cbn in Hw1, Hw2, Hp.
      specialize (IH o w1 Hp).
      destruct (advance env who (k o) w1) as [[o'|R' c' k'] w2]; [exact IH|].
      destruct IH as [[IH1 IH2] IH3]. repeat split; [congruence|congruence|exact IH3].
  - cbn. repeat split. exact Hp.
Qed.

Lemma keeps_app_gentle (p : Prog unit) : always keeps_app p -> gentle env who p.
Proof.
  intros Hp w.
  pose proof (advance_always env who _ (fun w => (app w, resultBy w)) keeps_app
                (fun _ _ => eq_refl) (exec_op_keeps_app env who)
                unit p w Hp) as Hadv.
  destruct (advance env who p w) as [[o|R c k] w'].
  - left. injection Hadv as -> ->. split; reflexivity.
  - destruct Hadv as [Hadv _]. injection Hadv as -> ->. split; reflexivity.
Qed.

Lemma replaces_cleanly_gentle (p : Prog unit) : replaces_cleanly p -> gentle env who p.
Proof.
  intros Hp w. destruct (Hp env who w) as (o & w' & -> & [[Ha Hb]|Hnone]).
  - left. rewrite Ha. split; [reflexivity|exact Hb].
  - right. exact Hnone.
Qed.

End Flag.

(** ** Footprints of the handlers *)

Section Footprints.

Variable P : forall R : Type, Op R -> Prop.

Lemma always_resume (R : Type) (o : Outcome R) : always P (resume o).
Proof. destruct o; exact I. Qed.

Lemma always_perform (R : Type) (op : Op R) : P R op -> always P (perform op).
Proof. intros H. split; [exact H|]. apply always_resume. Qed.

Lemma always_await (R : Type) (c : Async R) : always P (await c).
Proof. intros o. apply always_resume. Qed.

Lemma always_bind (A B : Type) (p : Prog A) (f : A -> Prog B) :
  always P p -> (forall a, always P (f a)) -> always P (bind p f).
Proof.
  intros Hp Hf. induction p as [a|e|R op k IH|R c k IH]; cbn in *.
  - apply Hf.
  - exact I.
  - destruct Hp as [Hop Hk]. split; [exact Hop|]. intros o. apply IH, Hk.
  - intros o. apply IH, Hp.
Qed.

Lemma always_try_catch (A : Type) (p : Prog A) (handler : JsError -> Prog A) :
  always P p -> (forall e, always P (handler e)) -> always P (try_catch p handler).
Proof.
  intros Hp Hh. induction p as [a|e|R op k IH|R c k IH]; cbn in *.
  - exact I.
  - apply Hh.
  - destruct Hp as [Hop Hk]. split; [exact Hop|]. intros o. apply IH, Hk.
  - intros o. apply IH, Hp.
Qed.

Lemma always_forEach (A : Type) (l : list A) (f : A -> Prog unit) :
  (forall x, always P (f x)) -> always P (forEach l f).
Proof.
  intros Hf. induction l as [|x l IH]; cbn.
  - exact I.
  - apply always_bind; [apply Hf|intros _; exact IH].
Qed.

End Footprints.

(** The body of a [try .. finally] that clears the busy flag is closing as
    soon as it leaves the flag alone itself. *)
Lemma closing_finally (A : Type) (p : Prog A) :
  always keeps_flag p -> closing (finally p (setIsLoading false)).
Proof.
  induction p as [a|e|R op k IH|R c k IH]; intros Hp; cbn in *.
  - split; [reflexivity|]. intros [[]|e]; exact I.
  - split; [reflexivity|]. intros [[]|e']; exact I.
  - destruct Hp as [Hop Hk].
    destruct op; try contradiction; intros o; apply IH, Hk.
  - intros o. apply IH, Hp.
Qed.

Lemma always_finally (P : forall R : Type, Op R -> Prop) (A : Type)
    (p : Prog A) (final : Prog unit) :
  always P p -> always P final -> always P (finally p final).
Proof.
  intros Hp Hf. induction p as [a|e|R op k IH|R c k IH]; cbn in *.
  - apply always_bind; [exact Hf|intros _; exact I].
  - apply always_bind; [exact Hf|intros _; exact I].
  - destruct Hp as [Hop Hk]. split; [exact Hop|]. intros o. apply IH, Hk.
  - intros o. apply IH, Hp.
Qed.

(** Break a handler into its statements. *)
Ltac footprint :=
  repeat first
    [ exact I
    | apply always_resume
    | apply always_await
    | apply always_perform
    | apply always_forEach
    | apply always_try_catch
    | apply always_finally
    | apply always_bind
    | intro
    | split
    | match goal with
      | |- always _ (match ?x with _ => _ end) => destruct x
      | |- always _ (match ?x with _ => _ end _) => destruct x
      | |- always _ (if ?b then _ else _) => destruct b
      end ].

Lemma loadModels_keeps_app : always keeps_app loadModels.
Proof. unfold loadModels, consoleLog, consoleError, mbind, Prog_bind. footprint. Qed.

Lemma cleanup_keeps_app : always keeps_app cleanup.
Proof. unfold cleanup, stopTracks, mbind, Prog_bind. footprint. Qed.

Lemma startCamera_keeps_app : always keeps_app startCamera.
Proof.
  unfold startCamera, stopTracks, consoleError, alert, mbind, Prog_bind. footprint.
Qed.

Lemma handleImageUpload_keeps_flag (files : list File) :
  always keeps_flag (handleImageUpload files).
Proof.
  unfold handleImageUpload, setUploadedImage, setVerificationResult, mbind, Prog_bind.
  destruct (head files); [|exact I]. cbn. footprint.
  all: cbn; footprint.
Qed.

Lemma captureImage_keeps_flag : always keeps_flag captureImage.
Proof.
  unfold captureImage, setCameraImage, setVerificationResult, mbind, Prog_bind.
  footprint.
Qed.

Lemma keeps_app_flag (A : Type) (p : Prog A) : always keeps_app p -> always keeps_flag p.
Proof.
  induction p as [a|e|R op k IH|R c k IH]; cbn; try tauto.
  - intros [Hop Hk]. split; [destruct op; try contradiction; exact I|].
    intros o. apply IH, Hk.
  - intros Hk o. apply IH, Hk.
Qed.

(** An accepted call of [verifyFaces] sets the busy flag and stops at the
    fetch of the uploaded image; what is left of it clears the flag on
    every path, never writes an input, and writes a result before it
    ends. *)
Lemma verifyFaces_starts (env : Env) (who : Origin) (w : World)
    (u' c' : option string) (u c : string) :
  truthy u' = Some u -> truthy c' = Some c ->
  exists k : Outcome HTMLImageElement -> Prog unit,
    advance env who (verifyFaces env u' c') w
    = (Blocked (FetchImage u) k,
       issue (FetchImage u)
         (with_app {| uploadedImage := uploadedImage (app w);
                      cameraImage := cameraImage (app w);
                      verificationResult := verificationResult (app w);
                      isLoading := true |} w))
    /\ (forall o, closing (k o))
    /\ (forall o, always keeps_inputs (k o))
    /\ (forall o, reports env who (k o)).
Proof.
  intros Hu Hc. unfold verifyFaces. rewrite Hu, Hc.
  eexists. split; [reflexivity|].
  split; [|split]; intros o.
  - apply closing_finally.
    unfold setVerificationResult, consoleLog, consoleError, mbind, Prog_bind.
    footprint.
  - apply always_finally; [|apply always_perform; exact I].
    unfold setVerificationResult, consoleLog, consoleError, mbind, Prog_bind.
    footprint.
  - repeat (cbn;
            match goal with
            | |- True => exact I
            | |- forall _, _ => intro
            | o : Outcome _ |- _ => destruct o
            | x : option Detection |- _ => destruct x
            | |- context [euclideanDistance ?e ?a ?b] =>
                destruct (euclideanDistance e a b)
            end).
Qed.

(** ** At most one verification in flight *)

Lemma verifying_app (s : Sys) (w : World) (t : Task) (errs : list JsError) :
  verifying {| world := w; tasks := tasks s ++ [t]; unhandled := errs |}
  = verifying s ++ (if is_verify t then [t] else []).
Proof.
  unfold verifying. cbn. rewrite filter_app. f_equal.
  rewrite filter_cons, filter_nil.
  destruct (is_verify t); [rewrite decide_True|rewrite decide_False]; congruence.
Qed.

Lemma filter_delete_out (l : list Task) (i : nat) (t : Task) :
  l !! i = Some t -> is_verify t = false ->
  filter (fun t => is_verify t = true) (delete i l)
  = filter (fun t => is_verify t = true) l.
Proof.
  intros Hi Ht. rewrite <- (take_drop_middle l i t Hi) at 2.
  rewrite delete_take_drop, !filter_app, filter_cons.
  rewrite decide_False by congruence. reflexivity.
Qed.

Lemma filter_delete_in (l : list Task) (i : nat) (t : Task) :
  l !! i = Some t -> is_verify t = true ->
  length (filter (fun t => is_verify t = true) l)
  = S (length (filter (fun t => is_verify t = true) (delete i l))).
Proof.
  intros Hi Ht. rewrite <- (take_drop_middle l i t Hi) at 1.
  rewrite delete_take_drop, !filter_app, filter_cons.
  rewrite decide_True by congruence. rewrite !length_app. cbn. lia.
Qed.

(** An invocation that gets stuck stays in flight. *)
Lemma verifying_stuck (s : Sys) (i : nat) (who : Origin) (R : Type) (c : Async R)
    (k : Outcome R -> Prog unit) (e : JsError) (w : World) (errs : list JsError) :
  tasks s !! i = Some (Suspended who c k) ->
  length (verifying {| world := w; tasks := delete i (tasks s) ++ [Stuck who e];
                       unhandled := errs |})
  = length (verifying s).
Proof.
  intros Hi.
  pose proof (verifying_app {| world := w; tasks := delete i (tasks s); unhandled := errs |}
                w (Stuck who e) errs) as Happ.
  cbn [tasks] in Happ. rewrite Happ.
  unfold verifying. cbn [tasks].
  change (is_verify (Stuck who e)) with (verify_origin who).
  destruct (verify_origin who) eqn:Hwho.
  - rewrite (filter_delete_in (tasks s) i _ Hi Hwho), length_app. cbn. lia.
  - rewrite (filter_delete_out (tasks s) i _ Hi Hwho), app_nil_r. reflexivity.
Qed.

Lemma verifying_stuck_nil (s : Sys) (i : nat) (who : Origin) (R : Type) (c : Async R)
    (k : Outcome R -> Prog unit) (e : JsError) (w : World) (errs : list JsError) :
  tasks s !! i = Some (Suspended who c k) ->
  verifying {| world := w; tasks := delete i (tasks s) ++ [Stuck who e];
               unhandled := errs |} = []
  <-> verifying s = [].
Proof.
  intros Hi. rewrite <- !length_zero_iff_nil.
  rewrite (verifying_stuck s i who R c k e w errs Hi). reflexivity.
Qed.

(** A handler other than [verifyFaces] that leaves the flag alone keeps
    the discipline. *)
Lemma dispatch_keeps_flag (env : Env) (who : Origin) (p : Prog unit) (s : Sys) :
  verify_origin who = false -> always keeps_flag p ->
  one_at_a_time s -> one_at_a_time (dispatch env who p s).
Proof.
  intros Hwho Hp (Hlen & Hflag & Hall). unfold dispatch.
  pose proof (advance_always env who bool (fun w => isLoading (app w)) keeps_flag
                (fun _ _ => eq_refl) (exec_op_keeps_flag env who)
                unit p (world s) Hp) as Hadv.
  destruct (advance env who p (world s)) as [[[[]|e]|R c k] w'].
  - repeat split; cbn; [exact Hlen|rewrite Hadv; exact Hflag|exact Hall].
  - repeat split; cbn; [exact Hlen|rewrite Hadv; exact Hflag|exact Hall].
  - destruct Hadv as [Hw Hk]. unfold one_at_a_time.
    rewrite verifying_app. unfold is_verify. cbn. rewrite Hwho, app_nil_r.
    repeat split; [exact Hlen|rewrite Hw; exact Hflag|].
    apply Forall_app. split; [exact Hall|].
    apply Forall_singleton. cbn. rewrite Hwho. exact Hk.
Qed.

(** What is left of a verification, resumed while no other is in flight,
    keeps the discipline. *)
Lemma dispatch_closing (env : Env) (who : Origin) (p : Prog unit) (s : Sys) :
  verify_origin who = true -> closing p ->
  verifying s = [] -> isLoading (app (world s)) = true -> Forall busy_ok (tasks s) ->
  one_at_a_time (dispatch env who p s).
Proof.
  intros Hwho Hp Hnone Hbusy Hall. unfold dispatch.
  pose proof (advance_closing env who unit p (world s) Hp) as Hadv.
  destruct (advance env who p (world s)) as [[[[]|e]|R c k] w'].
  - unfold one_at_a_time, verifying in *. cbn. rewrite Hnone.
    repeat split; [cbn; lia|congruence|exact Hall].
  - unfold one_at_a_time, verifying in *. cbn. rewrite Hnone.
    repeat split; [cbn; lia|congruence|exact Hall].
  - destruct Hadv as [Hw Hk]. unfold one_at_a_time.
    rewrite verifying_app. unfold is_verify. cbn. rewrite Hwho, Hnone.
    repeat split; [cbn; lia|intros _; congruence|].
    apply Forall_app. split; [exact Hall|].
    apply Forall_singleton. cbn. rewrite Hwho. exact Hk.
Qed.

Lemma verifyDisabled_false (a : AppState) :
  verifyDisabled a = false ->
  isLoading a = false
  /\ (exists u, truthy (uploadedImage a) = Some u)
  /\ (exists c, truthy (cameraImage a) = Some c).
Proof.
  unfold verifyDisabled. intros H.
  apply orb_false_elim in H as [H Hc]. apply orb_false_elim in H as [Hl Hu].
  apply negb_false_iff, bool_decide_eq_true in Hu, Hc.
  destruct Hu as [u Hu], Hc as [c Hc]. eauto.
Qed.

Lemma step_one_at_a_time (env : Env) (ev : Event) (s : Sys) :
  one_at_a_time s -> one_at_a_time (step env ev s).
Proof.
  intros Hs. destruct ev as [| |files| | | |i]; unfold step.
  - apply dispatch_keeps_flag; [reflexivity|apply keeps_app_flag, loadModels_keeps_app|exact Hs].
  - apply dispatch_keeps_flag; [reflexivity|apply keeps_app_flag, cleanup_keeps_app|exact Hs].
  - apply dispatch_keeps_flag; [reflexivity|apply handleImageUpload_keeps_flag|exact Hs].
  - apply dispatch_keeps_flag; [reflexivity|apply keeps_app_flag, startCamera_keeps_app|exact Hs].
  - apply dispatch_keeps_flag; [reflexivity|apply captureImage_keeps_flag|exact Hs].
  - destruct (verifyDisabled (app (world s))) eqn:Hdis; [exact Hs|].
    destruct (verifyDisabled_false _ Hdis) as (Hidle & [u Hu] & [c Hc]).
    destruct Hs as (Hlen & Hflag & Hall).
    assert (Hnone : verifying s = []).
    { destruct (verifying s) eqn:E; [reflexivity|].
      rewrite Hflag in Hidle; [discriminate|congruence]. }
    destruct (verifyFaces_starts env
                (ByVerify (uploadedImage (app (world s))) (cameraImage (app (world s))))
                (world s) _ _ u c Hu Hc) as (k & Hadv & Hk & _).
    unfold dispatch. rewrite Hadv. unfold one_at_a_time.
    rewrite verifying_app, Hnone. cbn.
    repeat split; [lia|].
    apply Forall_app. split; [exact Hall|].
    apply Forall_singleton. exact Hk.
  - destruct (tasks s !! i) as [[who R c k|who e]|] eqn:Hi; [|exact Hs|exact Hs].
    destruct Hs as (Hlen & Hflag & Hall).
    pose proof (proj1 (settle_app env R c (world s))) as Happ.
    destruct (settle env c (world s)) as [[o|e] w1]; cbn in Happ.
    2:{ unfold one_at_a_time.
        rewrite (verifying_stuck_nil s i who R c k e w1 _ Hi),
                (verifying_stuck s i who R c k e w1 _ Hi). cbn.
        repeat split; [exact Hlen|rewrite Happ; exact Hflag|].
        apply Forall_app. split; [apply Forall_delete, Hall|].
        apply Forall_singleton. exact I. }
    pose proof (Forall_lookup_1 _ _ _ _ Hall Hi) as Hok. cbn in Hok.
    destruct (verify_origin who) eqn:Hwho.
    + pose proof (filter_delete_in (tasks s) i _ Hi Hwho) as Hin.
      apply dispatch_closing; cbn; [exact Hwho|apply Hok| | |apply Forall_delete, Hall].
      * unfold verifying in Hlen.
        apply length_zero_iff_nil. lia.
      * rewrite Happ. apply Hflag. unfold verifying. intros E. rewrite E in Hin.
        discriminate.
    + apply dispatch_keeps_flag; [exact Hwho|apply Hok|].
      unfold one_at_a_time, verifying in *. cbn.
      rewrite (filter_delete_out (tasks s) i _ Hi Hwho), Happ.
      repeat split; [exact Hlen|exact Hflag|apply Forall_delete, Hall].
Qed.

Lemma exec_one_at_a_time (env : Env) (evs : list Event) (s : Sys) :
  one_at_a_time s -> one_at_a_time (exec env evs s).
Proof.
  revert s. induction evs as [|ev evs IH]; intros s Hs; cbn.
  - exact Hs.
  - apply IH, step_one_at_a_time, Hs.
Qed.

Lemma initial_one_at_a_time : one_at_a_time initial.
Proof.
  repeat split; cbn; [lia|intros H; contradiction|constructor].
Qed.

(** C6. Whatever the user does and however the awaited calls are answered,
    at most one invocation of [verifyFaces] is in flight; while one is,
    the busy flag is set and a click on the verify button is rejected: it
    changes nothing and starts nothing. *)
Theorem verify_one_at_a_time (env : Env) (evs : list Event) :
  let s := exec env evs initial in
  length (verifying s) <= 1
  /\ (verifying s <> [] ->
      isLoading (app (world s)) = true /\ step env ClickVerify s = s).
Proof.
  intros s.
  destruct (exec_one_at_a_time env evs initial initial_one_at_a_time)
    as (Hlen & Hflag & _).
  fold s in Hlen, Hflag.
  split; [exact Hlen|].
  intros Hv. split; [exact (Hflag Hv)|].
  cbn. unfold verifyDisabled. rewrite (Hflag Hv). reflexivity.
Qed.

(** ** Results and the inputs they were computed from *)

Lemma attributable_same (w w' : World) :
  app w' = app w -> resultBy w' = resultBy w -> attributable w -> attributable w'.
Proof. unfold attributable. intros -> ->. exact id. Qed.

Lemma attributable_cleared (w : World) :
  verificationResult (app w) = None -> attributable w.
Proof. unfold attributable. intros -> r [=]. Qed.

Lemma task_current_transfer (w w' : World) (l : list Task) :
  (filter (fun t => is_verify t = true) l <> [] -> inputs w' = inputs w) ->
  Forall (task_current w) l -> Forall (task_current w') l.
Proof.
  intros Hin Hall. induction Hall as [|t l Ht Hl IH]; constructor.
  - unfold task_current in *. destruct (task_origin t) eqn:Ho; try exact I.
    rewrite Hin; [exact Ht|].
    rewrite filter_cons, decide_True; [discriminate|].
    unfold is_verify. rewrite Ho. reflexivity.
  - apply IH. intros Hne. apply Hin.
    rewrite filter_cons. destruct (decide (is_verify t = true)); [discriminate|exact Hne].
Qed.

Lemma reader_onload_clean (o : Outcome (option string)) :
  replaces_cleanly
    match o with
    | Ok result =>
        match truthy result with
        | Some url => setUploadedImage (Some url) ;; setVerificationResult None
        | None => Ret tt
        end
    | Throw _ => Ret tt
    end.
Proof.
  intros env who w. destruct o as [result|e]; [destruct (truthy result)|]; cbn;
    eexists; eexists; (split; [reflexivity|]);
    first [left; split; reflexivity|right; reflexivity].
Qed.

Lemma captureImage_clean : replaces_cleanly captureImage.
Proof.
  intros env who w. unfold captureImage.
  destruct w as [a [v|] [[cw ch [|] bm]|] sr lt nt ml rq rb]; cbn;
    eexists; eexists; (split; [reflexivity|]);
    first [left; split; reflexivity|right; reflexivity].
Qed.

(** What one step does to the task shapes, the inputs, and the attribution
    of the result. *)
Definition step_keeps (s s' : Sys) : Prop :=
  Forall task_shape (tasks s')
  /\ (inputs (world s') <> inputs (world s) ->
      verificationResult (app (world s')) = None)
  /\ ((verifying s <> [] -> inputs (world s') = inputs (world s)) ->
      Forall (task_current (world s)) (tasks s) ->
      Forall (task_current (world s')) (tasks s')
      /\ (attributable (world s) -> attributable (world s'))).

(** A step that leaves the state variables and the author of the result
    as they were keeps everything, provided its tasks are in order. *)
Lemma step_keeps_same (s0 s' : Sys) :
  app (world s') = app (world s0) -> resultBy (world s') = resultBy (world s0) ->
  Forall task_shape (tasks s') ->
  (Forall (task_current (world s0)) (tasks s0) ->
   Forall (task_current (world s0)) (tasks s')) ->
  step_keeps s0 s'.
Proof.
  intros Ha Hb Hshape Hcur.
  assert (Hin : inputs (world s') = inputs (world s0))
    by (unfold inputs; rewrite Ha; reflexivity).
  split; [exact Hshape|]. split.
  - intros Hne. contradiction.
  - intros _ Hall. split; [|exact (attributable_same _ _ Ha Hb)].
    apply (task_current_transfer (world s0)); [intros _; exact Hin|exact (Hcur Hall)].
Qed.

Lemma dispatch_keeps_app (env : Env) (who : Origin) (p : Prog unit) (s0 s : Sys) :
  match who with ByLoadModels | ByStartCamera | ByCleanup => True | _ => False end ->
  always keeps_app p ->
  app (world s) = app (world s0) -> resultBy (world s) = resultBy (world s0) ->
  Forall task_shape (tasks s) ->
  (Forall (task_current (world s0)) (tasks s0) ->
   Forall (task_current (world s0)) (tasks s)) ->
  step_keeps s0 (dispatch env who p s).
Proof.
  intros Hwho Hp Happ Hby Hshape Hcur. unfold dispatch.
  pose proof (advance_always env who _ (fun w => (app w, resultBy w)) keeps_app
                (fun _ _ => eq_refl) (exec_op_keeps_app env who)
                unit p (world s) Hp) as Hadv.
  assert (Hsame : forall w', (app w', resultBy w') = (app (world s), resultBy (world s)) ->
            app w' = app (world s0) /\ resultBy w' = resultBy (world s0))
    by (intros w' [= -> ->]; split; assumption).
  destruct (advance env who p (world s)) as [[[[]|e]|R c k] w'].
  - destruct (Hsame w' Hadv) as [Ha Hb]. apply step_keeps_same; assumption.
  - destruct (Hsame w' Hadv) as [Ha Hb]. apply step_keeps_same; assumption.
  - destruct Hadv as [Hadv Hk]. destruct (Hsame w' Hadv) as [Ha Hb].
    apply step_keeps_same; cbn; try assumption.
    + apply Forall_app. split; [exact Hshape|]. apply Forall_singleton.
      destruct who; try contradiction; exact Hk.
    + intros Hall. apply Forall_app. split; [exact (Hcur Hall)|].
      apply Forall_singleton. unfold task_current. cbn.
      destruct who; try contradiction; exact I.
Qed.

Lemma dispatch_clean (env : Env) (who : Origin) (p : Prog unit) (s0 s : Sys) :
  replaces_cleanly p ->
  app (world s) = app (world s0) -> resultBy (world s) = resultBy (world s0) ->
  Forall task_shape (tasks s) ->
  (Forall (task_current (world s0)) (tasks s0) ->
   Forall (task_current (world s0)) (tasks s)) ->
  (verifying s <> [] -> verifying s0 <> []) ->
  step_keeps s0 (dispatch env who p s).
Proof.
  intros Hp Happ Hby Hshape Hcur Hver. unfold dispatch.
  destruct (Hp env who (world s)) as (o & w' & -> & Hw').
  assert (Hgoal : forall errs,
            step_keeps s0 {| world := w'; tasks := tasks s; unhandled := errs |}).
  { intros errs. destruct Hw' as [[Ha Hb]|Hnone].
    - apply step_keeps_same; cbn; [congruence|congruence|exact Hshape|exact Hcur].
    - split; [exact Hshape|]. split; [intros _; exact Hnone|].
      cbn. intros Hsame Hall. split; [|intros _; exact (attributable_cleared _ Hnone)].
      apply (task_current_transfer (world s0)); [|exact (Hcur Hall)].
      intros Hne. apply Hsame, Hver, Hne. }
  destruct o as [[]|e]; apply Hgoal.
Qed.

Lemma verifyFaces_keeps_inputs (env : Env) (u c : option string) :
  always keeps_inputs (verifyFaces env u c).
Proof.
  unfold verifyFaces, setVerificationResult, setIsLoading, consoleLog, consoleError,
    mbind, Prog_bind.
  footprint.
Qed.

Lemma dispatch_verify (env : Env) (u c : option string) (p : Prog unit) (s0 s : Sys) :
  always keeps_inputs p ->
  app (world s) = app (world s0) -> resultBy (world s) = resultBy (world s0) ->
  Forall task_shape (tasks s) ->
  (Forall (task_current (world s0)) (tasks s0) ->
   Forall (task_current (world s0)) (tasks s) /\ (u, c) = inputs (world s0)) ->
  step_keeps s0 (dispatch env (ByVerify u c) p s).
Proof.
  intros Hp Happ Hby Hshape Hcur. unfold dispatch.
  pose proof (advance_always env (ByVerify u c) _ inputs keeps_inputs
                (fun _ _ => eq_refl) (exec_op_keeps_inputs env (ByVerify u c))
                unit p (world s) Hp) as Hadv.
  pose proof (advance_result env (ByVerify u c) unit p (world s)) as Hres.
  assert (Hin0 : inputs (world s) = inputs (world s0))
    by (unfold inputs; rewrite Happ; reflexivity).
  assert (Hattr : forall w',
            inputs w' = inputs (world s0) ->
            (verificationResult (app w') = verificationResult (app (world s))
             /\ resultBy w' = resultBy (world s))
            \/ resultBy w' = Some (ByVerify u c) ->
            attributable (world s0) -> (u, c) = inputs (world s0) ->
            attributable w').
  { intros w' Hin Hcase Ha Huc r Hr.
    unfold inputs in Hin. injection Hin as Hin1 Hin2. rewrite Hin1, Hin2.
    destruct Hcase as [[Hsame Hby']|Hby'].
    - rewrite Hby', Hby. apply (Ha r). rewrite <- Happ, <- Hsame. exact Hr.
    - rewrite Hby'. unfold inputs in Huc. congruence. }
  destruct (advance env (ByVerify u c) p (world s)) as [[o|R c' k] w'];
    cbn in Hres.
  - assert (Hin : inputs w' = inputs (world s0)) by congruence.
    assert (Hgoal : forall errs,
              step_keeps s0 {| world := w'; tasks := tasks s; unhandled := errs |}).
    { intros errs. split; [exact Hshape|]. split; [intros Hne; contradiction|].
      cbn. intros _ Hall. destruct (Hcur Hall) as [Hall' Huc].
      split; [|intros Ha; exact (Hattr w' Hin Hres Ha Huc)].
      apply (task_current_transfer (world s0)); [intros _; exact Hin|exact Hall']. }
    destruct o as [[]|e]; apply Hgoal.
  - destruct Hadv as [Hadv Hk].
    assert (Hin : inputs w' = inputs (world s0)) by congruence.
    split; [|split]; cbn.
    + apply Forall_app. split; [exact Hshape|]. apply Forall_singleton. exact Hk.
    + intros Hne; contradiction.
    + intros _ Hall. destruct (Hcur Hall) as [Hall' Huc].
      split; [|intros Ha; exact (Hattr w' Hin Hres Ha Huc)].
      apply (task_current_transfer (world s0)); [intros _; exact Hin|].
      apply Forall_app. split; [exact Hall'|]. apply Forall_singleton.
      exact Huc.
Qed.

Lemma step_keeps_step (env : Env) (ev : Event) (s : Sys) :
  Forall task_shape (tasks s) -> step_keeps s (step env ev s).
Proof.
  intros Hshape. destruct ev as [| |files| | | |i]; unfold step.
  - apply dispatch_keeps_app; auto using loadModels_keeps_app.
  - apply dispatch_keeps_app; auto using cleanup_keeps_app.
  - unfold handleImageUpload, dispatch. destruct (head files) as [file|]; cbn.
    + apply step_keeps_same; cbn; try reflexivity.
      * apply Forall_app. split; [exact Hshape|]. apply Forall_singleton.
        intros o. apply reader_onload_clean.
      * intros Hall. apply Forall_app. split; [exact Hall|].
        apply Forall_singleton. exact I.
    + apply step_keeps_same; cbn; auto.
  - apply dispatch_keeps_app; auto using startCamera_keeps_app.
  - apply dispatch_clean; auto using captureImage_clean.
  - destruct (verifyDisabled (app (world s))); [apply step_keeps_same; auto|].
    apply dispatch_verify; auto using verifyFaces_keeps_inputs.
  - destruct (tasks s !! i) as [[who R c k|who e]|] eqn:Hi;
      [|apply step_keeps_same; auto|apply step_keeps_same; auto].
    destruct (settle_app env R c (world s)) as [Happ Hby].
    destruct (settle env c (world s)) as [[o|e] w1]; cbn in Happ, Hby.
    2:{ apply step_keeps_same; cbn; try assumption.
        - apply Forall_app. split; [apply Forall_delete, Hshape|].
          apply Forall_singleton. exact I.
        - intros Hall. apply Forall_app. split; [apply Forall_delete, Hall|].
          apply Forall_singleton. exact (Forall_lookup_1 _ _ _ _ Hall Hi). }
    pose proof (Forall_lookup_1 _ _ _ _ Hshape Hi) as Hk. cbn in Hk.
    destruct who.
    + apply dispatch_keeps_app; cbn; auto using Forall_delete.
    + apply dispatch_clean; cbn; auto using Forall_delete.
      unfold verifying. cbn.
      rewrite (filter_delete_out (tasks s) i _ Hi eq_refl). exact id.
    + apply dispatch_keeps_app; cbn; auto using Forall_delete.
    + apply dispatch_clean; cbn; auto using Forall_delete.
      unfold verifying. cbn.
      rewrite (filter_delete_out (tasks s) i _ Hi eq_refl). exact id.
    + apply dispatch_verify; cbn; auto using Forall_delete.
      intros Hall. split; [apply Forall_delete, Hall|].
      exact (Forall_lookup_1 _ _ _ _ Hall Hi).
    + apply dispatch_keeps_app; cbn; auto using Forall_delete.
Qed.

Lemma exec_task_shape (env : Env) (evs : list Event) (s : Sys) :
  Forall task_shape (tasks s) -> Forall task_shape (tasks (exec env evs s)).
Proof.
  revert s. induction evs as [|ev evs IH]; intros s Hs; cbn; [exact Hs|].
  apply IH. apply (step_keeps_step env ev s Hs).
Qed.

Lemma exec_attributable (env : Env) (evs : list Event) (s : Sys) :
  Forall task_shape (tasks s) -> undisturbed env evs s ->
  attributable (world s) -> Forall (task_current (world s)) (tasks s) ->
  attributable (world (exec env evs s)).
Proof.
  revert s. induction evs as [|ev evs IH]; intros s Hs Hund Ha Hall; cbn; [exact Ha|].
  destruct Hund as [Hquiet Hund].
  destruct (step_keeps_step env ev s Hs) as (Hs' & _ & Hkeep).
  destruct (Hkeep Hquiet Hall) as [Hall' Ha'].
  apply IH; auto.
Qed.

(** *** A result left over from before a verification *)

Lemma verifying_none_current (w : World) (l : list Task) :
  filter (fun t => is_verify t = true) l = [] -> Forall (task_current w) l.
Proof.
  induction l as [|t l IH]; intros Hnone; constructor.
  - rewrite filter_cons in Hnone.
    destruct (decide (is_verify t = true)) as [Ht|Ht]; [discriminate|].
    unfold task_current. unfold is_verify in Ht.
    destruct (task_origin t); try exact I. contradiction Ht. reflexivity.
  - apply IH. rewrite filter_cons in Hnone.
    destruct (decide (is_verify t = true)); [discriminate|exact Hnone].
Qed.

Lemma handleImageUpload_gentle (env : Env) (who : Origin) (files : list File) :
  gentle env who (handleImageUpload files).
Proof.
  intros w. unfold handleImageUpload. destruct (head files); cbn.
  - split; reflexivity.
  - left. split; reflexivity.
Qed.

(** A handler other than [verifyFaces], run while a verification is in
    flight, leaves the result as it was or cleared. *)
Lemma dispatch_gentle (env : Env) (who : Origin) (p : Prog unit) (s0 s : Sys) :
  verify_origin who = false -> gentle env who p ->
  verificationResult (app (world s)) = verificationResult (app (world s0)) ->
  resultBy (world s) = resultBy (world s0) ->
  Forall (task_reports env) (tasks s) ->
  Forall (task_reports env) (tasks (dispatch env who p s))
  /\ (verifying s <> [] -> attributable_or_pending s0 (dispatch env who p s)).
Proof.
  intros Hwho Hp Hres Hby Hrep. unfold dispatch. specialize (Hp (world s)).
  destruct (advance env who p (world s)) as [[o|R c k] w'].
  - assert (Hgoal : forall errs,
              verifying s <> [] ->
              attributable_or_pending s0
                {| world := w'; tasks := tasks s; unhandled := errs |}).
    { intros errs Hv. destruct Hp as [[H1 H2]|Hnone].
      - right. repeat split; [exact Hv|cbn; congruence|cbn; congruence].
      - left. apply attributable_cleared. exact Hnone. }
    destruct o as [[]|e]; (split; [exact Hrep|apply Hgoal]).
  - destruct Hp as [H1 H2]. split.
    + cbn. apply Forall_app. split; [exact Hrep|].
      apply Forall_singleton. cbn. rewrite Hwho. exact I.
    + intros Hv. right. rewrite verifying_app. cbn.
      repeat split; [|congruence|congruence].
      intros E. apply app_eq_nil in E as [E _]. contradiction.
Qed.

(** What is left of a verification started on the inputs on display makes
    the result attributable when it ends, and has not touched it before. *)
Lemma dispatch_reporting (env : Env) (u c : option string) (p : Prog unit) (s0 s : Sys) :
  reports env (ByVerify u c) p -> always keeps_inputs p ->
  verificationResult (app (world s)) = verificationResult (app (world s0)) ->
  resultBy (world s) = resultBy (world s0) ->
  Forall (task_reports env) (tasks s) ->
  Forall (task_reports env) (tasks (dispatch env (ByVerify u c) p s))
  /\ ((u, c) = inputs (world s) ->
      attributable_or_pending s0 (dispatch env (ByVerify u c) p s)).
Proof.
  intros Hp Hin Hres Hby Hrep. unfold dispatch.
  pose proof (advance_reports env (ByVerify u c) unit p (world s) Hp) as Hadv.
  pose proof (advance_always env (ByVerify u c) _ inputs keeps_inputs
                (fun _ _ => eq_refl) (exec_op_keeps_inputs env (ByVerify u c))
                unit p (world s) Hin) as Hkeep.
  destruct (advance env (ByVerify u c) p (world s)) as [[o|R c' k] w'].
  - assert (Hgoal : forall errs,
              (u, c) = inputs (world s) ->
              attributable_or_pending s0
                {| world := w'; tasks := tasks s; unhandled := errs |}).
    { intros errs Huc. left. intros r _. cbn.
      rewrite Hadv. rewrite <- Hkeep in Huc. unfold inputs in Huc.
      injection Huc as -> ->. reflexivity. }
    destruct o as [[]|e]; (split; [exact Hrep|apply Hgoal]).
  - destruct Hadv as [[H1 H2] Hk]. split.
    + cbn. apply Forall_app. split; [exact Hrep|].
      apply Forall_singleton. exact Hk.
    + intros _. right. rewrite verifying_app. cbn.
      repeat split; [|congruence|congruence].
      intros E. apply app_eq_nil in E as [_ E]. discriminate.
Qed.

(** One step from a state with a verification in flight. *)
Lemma step_pending (env : Env) (ev : Event) (s : Sys) :
  Forall task_shape (tasks s) -> Forall (task_reports env) (tasks s) ->
  Forall (task_reports env) (tasks (step env ev s))
  /\ (Forall (task_current (world s)) (tasks s) -> verifying s <> [] ->
      attributable_or_pending s (step env ev s)).
Proof.
  intros Hshape Hrep.
  assert (Hgentle : forall who p s1,
            verify_origin who = false -> gentle env who p ->
            verificationResult (app (world s1)) = verificationResult (app (world s)) ->
            resultBy (world s1) = resultBy (world s) ->
            Forall (task_reports env) (tasks s1) ->
            (verifying s <> [] -> verifying s1 <> []) ->
            Forall (task_reports env) (tasks (dispatch env who p s1))
            /\ (Forall (task_current (world s)) (tasks s) -> verifying s <> [] ->
                attributable_or_pending s (dispatch env who p s1))).
  { intros who p s1 Hwho Hp H1 H2 H3 H4.
    destruct (dispatch_gentle env who p s s1 Hwho Hp H1 H2 H3) as [Ha Hb].
    split; [exact Ha|]. intros _ Hv. apply Hb, H4, Hv. }
  destruct ev as [| |files| | | |i]; unfold step.
  - apply Hgentle; auto using keeps_app_gentle, loadModels_keeps_app.
  - apply Hgentle; auto using keeps_app_gentle, cleanup_keeps_app.
  - apply Hgentle; auto using handleImageUpload_gentle.
  - apply Hgentle; auto using keeps_app_gentle, startCamera_keeps_app.
  - apply Hgentle; auto using replaces_cleanly_gentle, captureImage_clean.
  - destruct (verifyDisabled (app (world s))) eqn:Hdis.
    + split; [exact Hrep|]. intros _ Hv. right. auto.
    + destruct (verifyDisabled_false _ Hdis) as (_ & [u Hu] & [c Hc]).
      destruct (verifyFaces_starts env
                  (ByVerify (uploadedImage (app (world s))) (cameraImage (app (world s))))
                  (world s) _ _ u c Hu Hc) as (k & Hadv & _ & _ & Hk).
      unfold dispatch. rewrite Hadv. split.
      * cbn. apply Forall_app. split; [exact Hrep|].
        apply Forall_singleton. exact Hk.
      * intros _ _. right. rewrite verifying_app. cbn.
        repeat split. intros E. apply app_eq_nil in E as [_ E]. discriminate.
  - destruct (tasks s !! i) as [[who R c k|who e]|] eqn:Hi.
    3:{ split; [exact Hrep|]. intros _ Hv. right. auto. }
    2:{ split; [exact Hrep|]. intros _ Hv. right. auto. }
    destruct (settle_app env R c (world s)) as [Happ Hby].
    destruct (settle env c (world s)) as [[o|e] w1]; cbn in Happ, Hby.
    2:{ split.
        - cbn. apply Forall_app. split; [apply Forall_delete, Hrep|].
          apply Forall_singleton. exact I.
        - intros _ Hv. right.
          rewrite (verifying_stuck_nil s i who R c k e w1 _ Hi). cbn.
          rewrite Happ. auto. }
    pose proof (Forall_lookup_1 _ _ _ _ Hshape Hi) as Hk. cbn in Hk.
    pose proof (Forall_lookup_1 _ _ _ _ Hrep Hi) as Hr. cbn in Hr.
    assert (Hout : verify_origin who = false ->
              verifying s <> [] ->
              verifying {| world := w1; tasks := delete i (tasks s);
                           unhandled := unhandled s |} <> []).
    { intros Hwho. unfold verifying. cbn.
      rewrite (filter_delete_out (tasks s) i _ Hi Hwho). exact id. }
    destruct who as [| | | |u0 c0|].
    + apply Hgentle; cbn; auto using keeps_app_gentle, Forall_delete; congruence.
    + apply Hgentle; cbn; auto using replaces_cleanly_gentle, Forall_delete; congruence.
    + apply Hgentle; cbn; auto using keeps_app_gentle, Forall_delete; congruence.
    + apply Hgentle; cbn; auto using replaces_cleanly_gentle, Forall_delete; congruence.
    + destruct (dispatch_reporting env u0 c0 (k o) s
                  {| world := w1; tasks := delete i (tasks s); unhandled := unhandled s |})
        as [Ha Hb]; cbn; auto using Forall_delete; try congruence.
      split; [exact Ha|]. intros Hall _. apply Hb.
      pose proof (Forall_lookup_1 _ _ _ _ Hall Hi) as Huc.
      unfold task_current in Huc. cbn in Huc.
      unfold inputs in *. cbn [world]. rewrite Happ. exact Huc.
    + apply Hgentle; cbn; auto using keeps_app_gentle, Forall_delete; congruence.
Qed.

Lemma exec_task_reports (env : Env) (evs : list Event) (s : Sys) :
  Forall task_shape (tasks s) -> Forall (task_reports env) (tasks s) ->
  Forall (task_reports env) (tasks (exec env evs s)).
Proof.
  revert s. induction evs as [|ev evs IH]; intros s Hs Hr; cbn; [exact Hr|].
  apply IH.
  - apply (step_keeps_step env ev s Hs).
  - apply (step_pending env ev s Hs Hr).
Qed.

(** Along a schedule on which no input changes while a verification is in
    flight, the result on display is attributable as soon as it is no
    longer the one left from before. *)
Lemma exec_pending (env : Env) (evs : list Event) (s0 s : Sys) :
  Forall task_shape (tasks s) -> Forall (task_reports env) (tasks s) ->
  Forall (task_current (world s)) (tasks s) ->
  undisturbed env evs s ->
  attributable_or_pending s0 s -> attributable_or_pending s0 (exec env evs s).
Proof.
  revert s. induction evs as [|ev evs IH]; intros s Hs Hr Hall Hund Hinv; cbn;
    [exact Hinv|].
  destruct Hund as [Hquiet Hund].
  destruct (step_keeps_step env ev s Hs) as (Hs' & _ & Hkeep).
  destruct (Hkeep Hquiet Hall) as [Hall' Ha'].
  destruct (step_pending env ev s Hs Hr) as [Hr' Hpend].
  apply IH; try assumption.
  destruct Hinv as [Ha|(Hv & H1 & H2)].
  - left. apply Ha', Ha.
  - destruct (Hpend Hall Hv) as [Ha|(Hv' & H1' & H2')].
    + left. exact Ha.
    + right. repeat split; [exact Hv'|congruence|congruence].
Qed.

(** An accepted click on the verify button starts the one verification in
    flight, on the inputs on display. *)
Lemma click_starts (env : Env) (s : Sys) :
  one_at_a_time s -> verifyDisabled (app (world s)) = false ->
  Forall (task_current (world (step env ClickVerify s))) (tasks (step env ClickVerify s))
  /\ attributable_or_pending s (step env ClickVerify s).
Proof.
  intros (_ & Hflag & _) Hdis. cbn [step]. rewrite Hdis.
  destruct (verifyDisabled_false _ Hdis) as (Hidle & [u Hu] & [c Hc]).
  assert (Hnone : verifying s = []).
  { destruct (verifying s) eqn:E; [reflexivity|].
    rewrite Hflag in Hidle; [discriminate|congruence]. }
  destruct (verifyFaces_starts env
              (ByVerify (uploadedImage (app (world s))) (cameraImage (app (world s))))
              (world s) _ _ u c Hu Hc) as (k & Hadv & _).
  unfold dispatch. rewrite Hadv. cbn. split.
  - apply Forall_app. split; [apply verifying_none_current, Hnone|].
    apply Forall_singleton. reflexivity.
  - right. rewrite verifying_app. cbn.
    repeat split. intros E. apply app_eq_nil in E as [_ E]. discriminate.
Qed.

(** C2, as the code has it.  In every reachable state, a step that changes
    either input leaves the result cleared, in that same step.  After any
    history, from an accepted click on the verify button on and as long as
    no input changes while a verification is in flight, the result on
    display was written by a verification of exactly the pair of images on
    display, or it is still the one displayed at the click and a
    verification is still in flight.  And on a page with no such change in
    its whole history every displayed result is so attributable. *)
Theorem result_attributable (env : Env) (evs evs' : list Event) :
  let s := exec env evs initial in
  let s1 := step env ClickVerify s in
  let s2 := exec env evs' s1 in
  (forall ev, inputs (world (step env ev s)) <> inputs (world s) ->
     verificationResult (app (world (step env ev s))) = None)
  /\ (verifyDisabled (app (world s)) = false -> undisturbed env evs' s1 ->
      attributable (world s2)
      \/ (verifying s2 <> []
          /\ verificationResult (app (world s2)) = verificationResult (app (world s))
          /\ resultBy (world s2) = resultBy (world s)))
  /\ (undisturbed env evs initial -> attributable (world s)).
Proof.
  intros s s1 s2.
  assert (Hshape : Forall task_shape (tasks s))
    by (apply exec_task_shape; constructor).
  assert (Hrep : Forall (task_reports env) (tasks s))
    by (apply exec_task_reports; constructor).
  split; [|split].
  - intros ev. apply (step_keeps_step env ev s Hshape).
  - intros Hdis Hund.
    destruct (click_starts env s
                (exec_one_at_a_time env evs initial initial_one_at_a_time) Hdis)
      as [Hcur Hinv].
    apply (exec_pending env evs' s s1); try assumption.
    + apply (step_keeps_step env ClickVerify s Hshape).
    + apply (step_pending env ClickVerify s Hshape Hrep).
  - intros Hund. apply exec_attributable; try assumption.
    + constructor.
    + intros r [=].
    + constructor.
Qed.

Lemma undisturbed_check_sound (env : Env) (evs : list Event) (s : Sys) :
  undisturbed_check env evs s = true -> undisturbed env evs s.
Proof.
  revert s. induction evs as [|ev evs IH]; intros s H; cbn in *; [exact I|].
  apply andb_true_iff in H as [H1 H2]. split; [|apply IH, H2].
  intros Hne. apply orb_true_iff in H1 as [H1|H1].
  - destruct (verifying s); [contradiction|discriminate].
  - apply bool_decide_eq_true in H1. exact H1.
Qed.

(** A verification whose result went stale (the reference image was
    replaced while it was in flight), then the first image uploaded again
    and verified with no further change: the match on display is that of
    the pair on display. *)
Lemma result_attributable_witness :
  let s := exec studio [Mount; Settle 0; ChangeFile [fileA]; Settle 0;
                        ClickStartCamera; Settle 0; Settle 0; ClickCapture;
                        ClickVerify; ChangeFile [fileB]; Settle 1;
                        Settle 0; Settle 0; Settle 0; Settle 0;
                        ChangeFile [fileA]; Settle 0] initial in
  let s2 := exec studio [Settle 0; Settle 0; Settle 0; Settle 0]
              (step studio ClickVerify s) in
  verificationResult (app (world s2)) = Some "Match! Confidence: 50.0%"
  /\ attributable (world s2).
Proof.
  intros s s2. split; [vm_compute; reflexivity|].
  destruct (proj1 (proj2 (result_attributable studio
                  [Mount; Settle 0; ChangeFile [fileA]; Settle 0;
                   ClickStartCamera; Settle 0; Settle 0; ClickCapture;
                   ClickVerify; ChangeFile [fileB]; Settle 1;
                   Settle 0; Settle 0; Settle 0; Settle 0;
                   ChangeFile [fileA]; Settle 0]
                  [Settle 0; Settle 0; Settle 0; Settle 0])))
    as [Hattr|[Hv _]].
  - vm_compute. reflexivity.
  - apply undisturbed_check_sound. vm_compute. reflexivity.
  - exact Hattr.
  - exfalso. apply Hv. vm_compute. reflexivity.
Defined.

(** C2 as stated fails: a new reference image is loaded while a
    verification of the old one is in flight; the verification then writes
    its match, computed from the old image, beside the new one, for which
    a verification gives no match. *)
Lemma stale_result_displayed :
  let s := exec studio [Mount; Settle 0; ChangeFile [fileA]; Settle 0;
                        ClickStartCamera; Settle 0; Settle 0; ClickCapture;
                        ClickVerify; ChangeFile [fileB]; Settle 1;
                        Settle 0; Settle 0; Settle 0; Settle 0] initial in
  app (world s) =
    {| uploadedImage := Some "data:ref-b";
       cameraImage := Some "data:image/jpeg;base64,frame";
       verificationResult := Some "Match! Confidence: 50.0%";
       isLoading := false |}
  /\ resultBy (world s)
     = Some (ByVerify (Some "data:ref-a") (Some "data:image/jpeg;base64,frame"))
  /\ tasks s = []
  /\ verificationResult
       (app (run studio (ByVerify None None)
               (verifyFaces studio (Some "data:ref-b")
                  (Some "data:image/jpeg;base64,frame"))
               readyWorld).2)
     = Some "No Match - Different persons detected"
  /\ ~ attributable (world s).
Proof.
  intros s.
  assert (Happ : app (world s) =
    {| uploadedImage := Some "data:ref-b";
       cameraImage := Some "data:image/jpeg;base64,frame";
       verificationResult := Some "Match! Confidence: 50.0%";
       isLoading := false |}) by (vm_compute; reflexivity).
  assert (Hby : resultBy (world s)
     = Some (ByVerify (Some "data:ref-a") (Some "data:image/jpeg;base64,frame")))
    by (vm_compute; reflexivity).
  split; [exact Happ|]. split; [exact Hby|].
  split; [vm_compute; reflexivity|]. split; [vm_compute; reflexivity|].
  intros Hattr. specialize (Hattr "Match! Confidence: 50.0%").
  rewrite Happ, Hby in Hattr. cbn in Hattr.
  specialize (Hattr eq_refl). discriminate.
Qed.

(** ** The camera *)

Section Sequencing.

Variables (env : Env) (who : Origin).

Lemma advance_bind (A B : Type) (p : Prog A) (f : A -> Prog B) (w : World) :
  advance env who (bind p f) w
  = match advance env who p w with
    | (Finished (Ok a), w') => advance env who (f a) w'
    | (Finished (Throw e), w') => (Finished (Throw e), w')
    | (Blocked c k, w') => (Blocked c (fun o => bind (k o) f), w')
    end.
Proof.
  revert w. induction p as [a|e|R op k IH|R c k IH]; intros w; cbn.
  - destruct (advance env who (f a) w) as [[[]|]]; reflexivity.
  - reflexivity.
  - destruct (exec_op env who op w) as [o w1]. apply IH.
  - reflexivity.
Qed.

Lemma advance_try_catch (A : Type) (p : Prog A) (handler : JsError -> Prog A) (w : World) :
  advance env who (try_catch p handler) w
  = match advance env who p w with
    | (Finished (Ok a), w') => (Finished (Ok a), w')
    | (Finished (Throw e), w') => advance env who (handler e) w'
    | (Blocked c k, w') => (Blocked c (fun o => try_catch (k o) handler), w')
    end.
Proof.
  revert w. induction p as [a|e|R op k IH|R c k IH]; intros w; cbn.
  - reflexivity.
  - destruct (advance env who (handler e) w) as [[[]|]]; reflexivity.
  - destruct (exec_op env who op w) as [o w1]. apply IH.
  - reflexivity.
Qed.

(** Running to completion is advancing, answering the awaited call, and
    running the rest. *)
Lemma run_advance (A : Type) (p : Prog A) (w : World) :
  run env who p w
  = match advance env who p w with
    | (Finished o, w') => (Returned o, w')
    | (Blocked c k, w') =>
        match settle env c w' with
        | (Settled o, w'') => run env who (k o) w''
        | (Unsettled e, w'') => (Hung e, w'')
        end
    end.
Proof.
  revert w. induction p as [a|e|R op k IH|R c k IH]; intros w; cbn.
  - reflexivity.
  - reflexivity.
  - destruct (exec_op env who op w) as [o w1]. apply IH.
  - reflexivity.
Qed.

(** Stopping the tracks of a stream takes them, and nothing else, out of
    the live set. *)
Lemma advance_stopTracks (stream : MediaStream) (w : World) :
  exists w', advance env who (stopTracks stream) w = (Finished (Ok tt), w')
    /\ liveTracks w' = liveTracks w ∖ list_to_set (getTracks stream)
    /\ streamRef w' = streamRef w
    /\ requests w' = requests w.
Proof.
  unfold stopTracks. generalize (getTracks stream) as l. intros l. revert w.
  induction l as [|t l IH]; intros w; cbn.
  - eexists. split; [reflexivity|]. cbn.
    split; [rewrite difference_empty_L; reflexivity|split; reflexivity].
  - destruct (IH (with_device (liveTracks w ∖ {[t]}) (nextTrack w) w))
      as (w' & Hadv & Hlive & Hstream & Hreq).
    exists w'. split; [exact Hadv|].
    rewrite Hlive, Hstream, Hreq. cbn.
    split; [apply difference_difference_l_L|split; reflexivity].
Qed.

End Sequencing.

(** [startCamera] stops the tracks of the stream it holds and then stops
    at the camera request; what is left of it stores the granted stream
    and never touches a track. *)
Lemma startCamera_requests (env : Env) (who : Origin) (w : World) :
  exists (k : Outcome MediaStream -> Prog unit) (w' : World),
    advance env who startCamera w = (Blocked GetUserMedia k, w')
    /\ liveTracks w'
       = liveTracks w ∖ match streamRef w with
                        | Some stream => list_to_set (getTracks stream)
                        | None => ∅
                        end
    /\ streamRef w' = streamRef w
    /\ requests w' = requests w ++ [ReqGetUserMedia]
    /\ forall o w2,
         liveTracks (run env who (k o) w2).2 = liveTracks w2
         /\ streamRef (run env who (k o) w2).2
            = match o with
              | Ok stream => Some stream
              | Throw _ => streamRef w2
              end.
Proof.
  unfold startCamera, mbind, Prog_bind. cbv beta.
  assert (Hrest : forall (k : Outcome MediaStream -> Prog unit),
            k = (fun o => try_catch
                   (bind (resume o)
                      (fun stream : MediaStream =>
                         bind (perform (SetStreamRefCurrent (Some stream)))
                           (fun _ : unit =>
                              bind (perform VideoRefCurrent)
                                (fun video : option VideoElement =>
                                   match video with
                                   | Some _ =>
                                       bind (perform (SetSrcObject stream))
                                         (fun _ : unit => await Play)
                                   | None => Ret tt
                                   end))))
                   (fun _ : JsError =>
                      bind (consoleError "Error accessing camera:")
                        (fun _ : unit =>
                           alert "Unable to access camera. Please ensure camera permissions are granted."))) ->
            forall o w2,
              liveTracks (run env who (k o) w2).2 = liveTracks w2
              /\ streamRef (run env who (k o) w2).2
                 = match o with
                   | Ok stream => Some stream
                   | Throw _ => streamRef w2
                   end).
  { intros k -> o w2. destruct o as [stream|e]; cbn; [|split; reflexivity].
    destruct (videoRef w2) as [v|]; cbn; [|split; reflexivity].
    unfold on_video. cbn.
    destruct (videoRef w2) as [v'|]; cbn; [|split; reflexivity].
    destruct (play env _) as [[]|e]; cbn; split; reflexivity. }
  destruct (streamRef w) as [stream|] eqn:Hs.
  - destruct (advance_stopTracks env who stream w) as (w1 & Hstop & Hlive & Hstream & Hreq).
    eexists. eexists. split.
    { rewrite advance_try_catch, advance_bind. cbn [advance perform exec_op resume].
      rewrite Hs, advance_bind, Hstop. cbn. reflexivity. }
    cbn. rewrite Hlive, Hstream, Hreq, Hs.
    repeat split; try reflexivity; apply (Hrest _ eq_refl).
  - eexists. eexists. split.
    { rewrite advance_try_catch, advance_bind. cbn [advance perform exec_op resume].
      rewrite Hs. cbn. reflexivity. }
    cbn. rewrite Hs, difference_empty_L.
    repeat split; try reflexivity; apply (Hrest _ eq_refl).
Qed.

(** A call of [startCamera] that is run to its end keeps every live track
    within the stream the component holds. *)
Lemma run_startCamera_no_leak (env : Env) (who : Origin) (w : World) :
  no_leak w -> no_leak (run env who startCamera w).2.
Proof.
  intros Hw.
  destruct (startCamera_requests env who w) as (k & w' & Hadv & Hlive & Hstream & _ & Hk).
  rewrite run_advance, Hadv.
  assert (Hnone : forall t, t ∉ liveTracks w').
  { intros t Ht. rewrite Hlive in Ht. apply elem_of_difference in Ht as [Ht Hout].
    destruct (Hw t Ht) as (stream & Hs & Hin). rewrite Hs in Hout.
    apply Hout. apply elem_of_list_to_set. exact Hin. }
  cbn [settle].
  destruct (getUserMedia env (length (requests w'))) as [n|e].
  - destruct (Hk (Ok {| getTracks := seq (nextTrack w') n |})
               (with_device (liveTracks w' ∪ list_to_set (seq (nextTrack w') n))
                  (nextTrack w' + n) w')) as [Hl Hs].
    intros t Ht. rewrite Hl in Ht. cbn in Ht.
    eexists. split; [exact Hs|]. cbn.
    apply elem_of_union in Ht as [Ht|Ht]; [destruct (Hnone t Ht)|].
    apply elem_of_list_to_set in Ht. exact Ht.
  - destruct (Hk (Throw e) w') as [Hl Hs].
    intros t Ht. rewrite Hl in Ht. destruct (Hnone t Ht).
Qed.

(** X14.  [startCamera] stops every track of the stream it holds before it
    issues the camera request; so a call that is run to its end before the
    next one begins keeps every live track within the one stream the
    component holds, and after any number of such calls at most one
    session is active and no track is out of reach. *)
Theorem startCamera_one_session (env : Env) (who : Origin) (w : World) (n : nat) :
  (exists (k : Outcome MediaStream -> Prog unit) (w' : World),
     advance env who startCamera w = (Blocked GetUserMedia k, w')
     /\ liveTracks w'
        = liveTracks w ∖ match streamRef w with
                         | Some stream => list_to_set (getTracks stream)
                         | None => ∅
                         end
     /\ requests w' = requests w ++ [ReqGetUserMedia])
  /\ (no_leak w -> no_leak (run env who startCamera w).2)
  /\ no_leak (startCameraTimes env n initialWorld).
Proof.
  split; [|split].
  - destruct (startCamera_requests env who w) as (k & w' & Hadv & Hlive & _ & Hreq & _).
    exists k, w'. repeat split; assumption.
  - apply run_startCamera_no_leak.
  - induction n as [|n IH]; cbn.
    + intros t Ht. cbn in Ht. apply not_elem_of_empty in Ht. destruct Ht.
    + apply run_startCamera_no_leak. exact IH.
Qed.

(** C7.  Two clicks on Start Camera, the second while the first call still
    awaits the camera.  Each call found no stream to stop; both requests
    are granted; the component holds the second stream, and the track of
    the first stays live with no handle left to stop it.  The cleanup run
    on unmount stops the held stream only: the first track is still live
    after it. *)
Theorem overlapping_startCamera_leaks :
  let s := exec studio [ClickStartCamera; ClickStartCamera;
                        Settle 0; Settle 0; Settle 0; Settle 0] initial in
  let s' := step studio Unmount s in
  requests (world s) = [ReqGetUserMedia; ReqGetUserMedia; ReqPlay; ReqPlay]
  /\ tasks s = []
  /\ streamRef (world s) = Some {| getTracks := [1] |}
  /\ 0 ∈ liveTracks (world s)
  /\ 1 ∈ liveTracks (world s)
  /\ ~ no_leak (world s)
  /\ tasks s' = []
  /\ 0 ∈ liveTracks (world s')
  /\ 1 ∉ liveTracks (world s').
Proof.
  intros s s'.
  assert (Hreq : requests (world s) = [ReqGetUserMedia; ReqGetUserMedia; ReqPlay; ReqPlay])
    by (vm_compute; reflexivity).
  assert (Htasks : tasks s = []) by (vm_compute; reflexivity).
  assert (Hstream : streamRef (world s) = Some {| getTracks := [1] |})
    by (vm_compute; reflexivity).
  assert (H0 : 0 ∈ liveTracks (world s))
    by (apply (bool_decide_unpack (0 ∈ liveTracks (world s))); vm_compute; exact I).
  assert (H1 : 1 ∈ liveTracks (world s))
    by (apply (bool_decide_unpack (1 ∈ liveTracks (world s))); vm_compute; exact I).
  assert (Htasks' : tasks s' = []) by (vm_compute; reflexivity).
  assert (H0' : 0 ∈ liveTracks (world s'))
    by (apply (bool_decide_unpack (0 ∈ liveTracks (world s'))); vm_compute; exact I).
  assert (H1' : 1 ∉ liveTracks (world s'))
    by (apply (bool_decide_unpack (1 ∉ liveTracks (world s'))); vm_compute; exact I).
  repeat split; try assumption.
  intros Hleak. destruct (Hleak 0 H0) as (stream & Hs & Hin).
  rewrite Hstream in Hs. injection Hs as <-. cbn in Hin.
  apply list_elem_of_singleton in Hin. discriminate.
Qed.

(** * Further properties of the handlers *)

(** ** Running a handler to its end *)

Section RunFrames.

Variables (env : Env) (who : Origin).
Variables (X : Type) (f : World -> X) (P : forall R : Type, Op R -> Prop).
Hypothesis f_log : forall r w, f (log_request r w) = f w.
Hypothesis f_settle : forall R (c : Async R) w, f (settle env c w).2 = f w.
Hypothesis f_op : forall R (op : Op R) w, P R op -> f (exec_op env who op w).2 = f w.

Lemma run_always (A : Type) (p : Prog A) (w : World) :
  always P p -> f (run env who p w).2 = f w.
Proof.
  revert w. induction p as [a|e|R op k IH|R c k IH]; intros w Hp; cbn in *.
  - reflexivity.
  - reflexivity.
  - destruct Hp as [Hop Hk].
    pose proof (f_op R op w Hop) as Hw.
    destruct (exec_op env who op w) as [o w1]. cbn in Hw.
    rewrite (IH o w1 (Hk o)). exact Hw.
  - pose proof (f_settle R c (issue c w)) as Hw.
    destruct (settle env c (issue c w)) as [[o|e] w1]; cbn in Hw |- *.
    + rewrite (IH o w1 (Hp o)), Hw. apply f_log.
    + rewrite Hw. apply f_log.
Qed.

End RunFrames.

Lemma settle_app_pair (env : Env) (R : Type) (c : Async R) (w : World) :
  (app (settle env c w).2, resultBy (settle env c w).2) = (app w, resultBy w).
Proof. destruct (settle_app env R c w) as [-> ->]. reflexivity. Qed.


Lemma run_stopTracks (env : Env) (who : Origin) (stream : MediaStream) (w : World) :
  exists w', run env who (stopTracks stream) w = (Returned (Ok tt), w')
    /\ liveTracks w' = liveTracks w ∖ list_to_set (getTracks stream)
    /\ streamRef w' = streamRef w
    /\ requests w' = requests w.
Proof.
  destruct (advance_stopTracks env who stream w) as (w' & Hadv & H).
  exists w'. rewrite run_advance, Hadv. split; [reflexivity|exact H].
Qed.

(** Under [no_leak], stopping the held stream leaves no track live. *)
Lemma no_leak_stopped (w : World) (stream : MediaStream) :
  no_leak w -> streamRef w = Some stream ->
  liveTracks w ∖ list_to_set (getTracks stream) = ∅.
Proof.
  intros Hw Hs. apply elem_of_equiv_empty_L. intros t Ht.
  apply elem_of_difference in Ht as [Ht Hout].
  destruct (Hw t Ht) as (stream' & Hs' & Hin).
  rewrite Hs in Hs'. injection Hs' as <-.
  apply Hout, elem_of_list_to_set, Hin.
Qed.

Lemma no_leak_none (w : World) : no_leak w -> streamRef w = None -> liveTracks w = ∅.
Proof.
  intros Hw Hs. apply elem_of_equiv_empty_L. intros t Ht.
  destruct (Hw t Ht) as (stream & Hs' & _). congruence.
Qed.

(** X2. The cleanup of the mount effect turns the camera off: when every
    live track belongs to the held stream, no track is live after it.  It
    returns normally, keeps the state variables, and does not reset
    [streamRef], which goes on holding the stopped stream. *)
Theorem cleanup_stops_camera (env : Env) (who : Origin) (w : World) :
  no_leak w ->
  exists w', run env who cleanup w = (Returned (Ok tt), w')
    /\ liveTracks w' = ∅
    /\ streamRef w' = streamRef w
    /\ app w' = app w
    /\ requests w' = requests w.
Proof.
  intros Hw.
  assert (Happ : app (run env who cleanup w).2 = app w).
  { pose proof (run_always env who _ (fun w => (app w, resultBy w)) keeps_app
                  (fun _ _ => eq_refl) (settle_app_pair env)
                  (exec_op_keeps_app env who) unit cleanup w cleanup_keeps_app) as H.
    injection H as H _. exact H. }
  revert Happ. unfold cleanup. cbn.
  destruct (streamRef w) as [stream|] eqn:Hs.
  - destruct (run_stopTracks env who stream w) as (w' & Hrun & Hlive & Hstream & Hreq).
    rewrite Hrun. cbn. intros Happ. exists w'.
    rewrite Hlive, Hstream, Hs, Hreq, (no_leak_stopped w stream Hw Hs).
    repeat split; try reflexivity. exact Happ.
  - cbn. intros _. exists w. rewrite (no_leak_none w Hw Hs), Hs.
    repeat split; reflexivity.
Qed.

Lemma streamingWorld_live :
  streamRef streamingWorld = Some {| getTracks := [0] |}
  /\ 0 ∈ liveTracks streamingWorld.
Proof.
  split; [vm_compute; reflexivity|].
  apply (bool_decide_unpack (0 ∈ liveTracks streamingWorld)). vm_compute. exact I.
Qed.

Lemma cleanup_stops_camera_witness :
  exists w', run studio ByCleanup cleanup streamingWorld = (Returned (Ok tt), w')
    /\ liveTracks w' = ∅
    /\ streamRef w' = streamRef streamingWorld
    /\ app w' = app streamingWorld
    /\ requests w' = requests streamingWorld.
Proof.
  apply (cleanup_stops_camera studio ByCleanup streamingWorld).
  apply run_startCamera_no_leak.
  intros t Ht. cbn in Ht. apply not_elem_of_empty in Ht. destruct Ht.
Defined.

(** X3. [handleImageUpload] reads the first selected file only.  When the
    read delivers a non-empty data URL, that URL becomes the uploaded
    image and the result is cleared, the captured image and the busy flag
    staying as they were; when the read fails or delivers nothing, the
    state variables stay as they were.  The handler never throws. *)
Theorem handleImageUpload_first_file (env : Env) (who : Origin) (w : World)
    (file : File) (others : list File) :
  exists w', run env who (handleImageUpload (file :: others)) w = (Returned (Ok tt), w')
    /\ requests w' = requests w ++ [ReqReadAsDataURL file]
    /\ (forall url, readAsDataURL env file = Ok (Some url) -> url <> EmptyString ->
          app w' = {| uploadedImage := Some url;
                      cameraImage := cameraImage (app w);
                      verificationResult := None;
                      isLoading := isLoading (app w) |})
    /\ (readAsDataURL env file = Ok None
        \/ readAsDataURL env file = Ok (Some EmptyString)
        \/ (exists e, readAsDataURL env file = Throw e) ->
        app w' = app w /\ resultBy w' = resultBy w).
Proof.
  unfold handleImageUpload. cbn.
  destruct (readAsDataURL env file) as [[url|]|e]; cbn.
  - destruct (decide (url = EmptyString)) as [->|Hne]; cbn.
    + eexists. repeat split; try reflexivity.
      intros url' [= <-] H. contradiction.
    + eexists. split; [reflexivity|]. split; [reflexivity|]. split.
      * intros url' [= <-] _. reflexivity.
      * intros [H|[H|[e H]]]; congruence.
  - eexists. repeat split; try reflexivity. intros url [=].
  - eexists. repeat split; try reflexivity. intros url [=].
Qed.

(** ** The camera, call by call *)










(** X6. [captureImage] never throws and touches nothing but the canvas,
    the captured image and the result: the uploaded image, the busy flag,
    the video element, the held stream, the live tracks and the request
    log are as before.  With both elements mounted the canvas ends up
    sized to the video's intrinsic width and height, whether or not a 2D
    context is available. *)
Theorem captureImage_frame (env : Env) (who : Origin) (w : World) :
  exists w', run env who captureImage w = (Returned (Ok tt), w')
    /\ uploadedImage (app w') = uploadedImage (app w)
    /\ isLoading (app w') = isLoading (app w)
    /\ videoRef w' = videoRef w
    /\ streamRef w' = streamRef w
    /\ liveTracks w' = liveTracks w
    /\ requests w' = requests w
    /\ (forall c v, canvasRef w = Some c -> videoRef w = Some v ->
          exists c', canvasRef w' = Some c'
            /\ width c' = videoWidth env v /\ height c' = videoHeight env v).
Proof.
  unfold captureImage.
  destruct w as [a [v|] [[cw ch [|] bm]|] sr lt nt ml rq rb]; cbn;
    eexists; (split; [reflexivity|]); cbn;
    do 6 (split; [reflexivity|]);
    intros c' v' Hc Hv; try discriminate;
    injection Hv as <-; eexists; repeat split; reflexivity.
Qed.

(** ** More on [verifyFaces] *)

(** Case analysis on every answer the environment gives to a call of
    [verifyFaces]. *)
Ltac verify_answers :=
  repeat match goal with
    | |- context [fetchImage ?env ?x] =>
        destruct (fetchImage env x) as [?|?] eqn:?; cbn
    | |- context [detectSingleFace ?env ?b ?x] =>
        destruct (detectSingleFace env b x) as [[?|]|?] eqn:?; cbn
    | |- context [euclideanDistance ?env ?a ?b] =>
        destruct (euclideanDistance env a b) as [?|?] eqn:?; cbn
    end.

Lemma msg_match_neq (env : Env) (confidence : float) :
  msg_match env confidence <> msg_missing
  /\ msg_match env confidence <> msg_error
  /\ msg_match env confidence <> msg_no_face
  /\ msg_match env confidence <> msg_no_match.
Proof.
  destruct (msg_match_prefix env confidence) as [rest ->].
  repeat split; discriminate.
Qed.

(** X7. A call of [verifyFaces] that returns leaves a result, and it is
    one of five texts: the missing-input message, the error message, the
    no-face message, the no-match message, or a match message; it is the
    missing-input message exactly when one of the two images is null or
    empty.  A call that does not return (it stays at the [await] of a
    failed detection) had both images and has written no result. *)
Theorem verifyFaces_result_range (env : Env) (who : Origin) (w : World)
    (u' c' : option string) :
  exists cpl w', run env who (verifyFaces env u' c') w = (cpl, w')
    /\ let r := verificationResult (app w') in
       match cpl with
       | Returned _ =>
           (r = Some msg_missing \/ r = Some msg_error \/ r = Some msg_no_face
            \/ r = Some msg_no_match
            \/ exists confidence, r = Some (msg_match env confidence))
           /\ (r = Some msg_missing <-> truthy u' = None \/ truthy c' = None)
       | Hung _ =>
           r = verificationResult (app w) /\ resultBy w' = resultBy w
           /\ is_Some (truthy u') /\ is_Some (truthy c')
       end.
Proof.
  unfold verifyFaces.
  destruct (truthy u') as [u|]; [destruct (truthy c') as [c|]|]; cbn;
    try (do 2 eexists; split; [reflexivity|]; cbn; split; [auto|];
         split; auto).
  assert (Hno : forall r : option string,
            r <> Some msg_missing ->
            r = Some msg_missing <-> Some u = None \/ Some c = None).
  { intros r Hr. split; [intros H; contradiction|intros [H|H]; discriminate]. }
  verify_answers; (do 2 eexists; split; [reflexivity|]; cbn);
    try solve [split; [auto 6|apply Hno; discriminate]];
    try solve [repeat split; eauto].
  destruct (_ <? _)%float.
  - split; [eauto 10|]. apply Hno. intros H.
    match type of H with
    | Some (msg_match ?e ?x) = _ => apply (proj1 (msg_match_neq e x)); congruence
    end.
  - split; [auto 6|apply Hno; discriminate].
Qed.

(** X8. [verifyFaces] issues its requests in a fixed order and stops at the
    first failure: a failed fetch of the uploaded image is the only
    request of the call; a failed fetch of the captured image follows the
    first fetch and precedes any detection; a failed first detection is
    not followed by the second.  A first detection that finds no face
    does not stop the call: the second detection is still requested. *)
Theorem verifyFaces_fail_fast (env : Env) (who : Origin) (w : World)
    (u' c' : option string) (u c : string) :
  truthy u' = Some u -> truthy c' = Some c ->
  let asked := requests (run env who (verifyFaces env u' c') w).2 in
  (forall e, fetchImage env u = Throw e -> asked = requests w ++ [ReqFetchImage u])
  /\ (forall iu e, fetchImage env u = Ok iu -> fetchImage env c = Throw e ->
        asked = requests w ++ [ReqFetchImage u; ReqFetchImage c])
  /\ (forall iu ic e, fetchImage env u = Ok iu -> fetchImage env c = Ok ic ->
        detectSingleFace env (modelsLoaded w) iu = Throw e ->
        asked = requests w ++ [ReqFetchImage u; ReqFetchImage c; ReqDetectSingleFace iu])
  /\ (forall iu ic dc, fetchImage env u = Ok iu -> fetchImage env c = Ok ic ->
        detectSingleFace env (modelsLoaded w) iu = Ok None ->
        detectSingleFace env (modelsLoaded w) ic = Ok dc ->
        asked = requests w ++ [ReqFetchImage u; ReqFetchImage c;
                               ReqDetectSingleFace iu; ReqDetectSingleFace ic]).
Proof.
  intros Hu Hc asked. unfold asked, verifyFaces. rewrite Hu, Hc. cbn.
  repeat split.
  - intros e He. rewrite He. reflexivity.
  - intros iu e H1 H2. rewrite H1. cbn. rewrite H2. cbn.
    rewrite <- !app_assoc. reflexivity.
  - intros iu ic e H1 H2 H3. rewrite H1. cbn. rewrite H2. cbn. rewrite H3. cbn.
    rewrite <- !app_assoc. reflexivity.
  - intros iu ic dc H1 H2 H3 H4. rewrite H1. cbn. rewrite H2. cbn. rewrite H3. cbn.
    rewrite H4. destruct dc; cbn; rewrite <- !app_assoc; reflexivity.
Qed.

Lemma verifyFaces_fail_fast_witness :
  requests (run studio (ByVerify None None)
              (verifyFaces studio (Some "data:ref-a") (Some "data:unknown"))
              readyWorld).2
  = [ReqFetchImage "data:ref-a"; ReqFetchImage "data:unknown"].
Proof.
  refine (proj1 (proj2
    (verifyFaces_fail_fast studio (ByVerify None None) readyWorld
       (Some "data:ref-a") (Some "data:unknown") "data:ref-a" "data:unknown" _ _))
    3 "fetch failed" _ _); reflexivity.
Defined.

(** X9. [verifyFaces] never throws and changes nothing but the result, the
    busy flag and the request log: it returns normally or stays at a
    failed detection, and both images, the video and canvas elements, the
    held stream, the live tracks and the loading state of the models are
    as before, whatever the environment answers. *)
Theorem verifyFaces_frame (env : Env) (who : Origin) (w : World)
    (u' c' : option string) :
  exists cpl w', run env who (verifyFaces env u' c') w = (cpl, w')
    /\ (cpl = Returned (Ok tt) \/ exists e, cpl = Hung e)
    /\ uploadedImage (app w') = uploadedImage (app w)
    /\ cameraImage (app w') = cameraImage (app w)
    /\ videoRef w' = videoRef w /\ canvasRef w' = canvasRef w
    /\ streamRef w' = streamRef w /\ liveTracks w' = liveTracks w
    /\ nextTrack w' = nextTrack w /\ modelsLoaded w' = modelsLoaded w.
Proof.
  unfold verifyFaces.
  destruct (truthy u') as [u|]; [destruct (truthy c') as [c|]|]; cbn;
    try (do 2 eexists; split; [reflexivity|]; split; [left; reflexivity|];
         repeat split; reflexivity).
  verify_answers; do 2 eexists; (split; [reflexivity|]);
    (split; [first [left; reflexivity|right; eexists; reflexivity]|]);
    repeat split; reflexivity.
Qed.

Lemma truthy_String (a : ascii) (s : string) :
  truthy (Some (String a s)) = Some (String a s).
Proof. unfold truthy. destruct (decide (String a s = EmptyString)); congruence. Qed.

Lemma resultBox_match (env : Env) (confidence : float) :
  resultBox (Some (msg_match env confidence)) = Some Green.
Proof.
  unfold resultBox, msg_match.
  set (rest := (toFixed env confidence 1 +:+ "%")).
  assert (E : "Match! Confidence: " +:+ rest
              = String "M" ("atch! Confidence: " +:+ rest)) by reflexivity.
  rewrite E, truthy_String. vm_compute. reflexivity.
Qed.


(** ** More on the page as a whole *)

Lemma dispatch_flag_same (env : Env) (who : Origin) (p : Prog unit) (s : Sys) :
  verify_origin who = false -> always keeps_flag p ->
  isLoading (app (world (dispatch env who p s))) = isLoading (app (world s))
  /\ verifying (dispatch env who p s) = verifying s.
Proof.
  intros Hwho Hp. unfold dispatch.
  pose proof (advance_always env who bool (fun w => isLoading (app w)) keeps_flag
                (fun _ _ => eq_refl) (exec_op_keeps_flag env who)
                unit p (world s) Hp) as Hadv.
  destruct (advance env who p (world s)) as [[[[]|e]|R c k] w'].
  - split; [exact Hadv|reflexivity].
  - split; [exact Hadv|reflexivity].
  - destruct Hadv as [Hw _]. split; [exact Hw|].
    rewrite verifying_app. unfold is_verify. cbn. rewrite Hwho. apply app_nil_r.
Qed.

Lemma step_idle_flag (env : Env) (ev : Event) (s : Sys) :
  one_at_a_time s -> idle_flag s -> idle_flag (step env ev s).
Proof.
  intros Hs Hidle.
  assert (Hother : forall who p s1,
            verify_origin who = false -> always keeps_flag p ->
            isLoading (app (world s1)) = isLoading (app (world s)) ->
            verifying s1 = verifying s ->
            idle_flag (dispatch env who p s1)).
  { intros who p s1 Hwho Hp H1 H2.
    destruct (dispatch_flag_same env who p s1 Hwho Hp) as [Hf Hv].
    unfold idle_flag. rewrite Hf, Hv, H1, H2. exact Hidle. }
  destruct ev as [| |files| | | |i]; unfold step.
  - apply Hother; auto using keeps_app_flag, loadModels_keeps_app.
  - apply Hother; auto using keeps_app_flag, cleanup_keeps_app.
  - apply Hother; auto using handleImageUpload_keeps_flag.
  - apply Hother; auto using keeps_app_flag, startCamera_keeps_app.
  - apply Hother; auto using captureImage_keeps_flag.
  - destruct (verifyDisabled (app (world s))) eqn:Hdis; [exact Hidle|].
    destruct (verifyDisabled_false _ Hdis) as (_ & [u Hu] & [c Hc]).
    destruct (verifyFaces_starts env
                (ByVerify (uploadedImage (app (world s))) (cameraImage (app (world s))))
                (world s) _ _ u c Hu Hc) as (k & Hadv & _ & _).
    unfold dispatch. rewrite Hadv. unfold idle_flag.
    rewrite verifying_app. cbn. intros H. apply app_eq_nil in H as [_ H]. discriminate.
  - destruct (tasks s !! i) as [[who R c k|who e]|] eqn:Hi; [|exact Hidle|exact Hidle].
    destruct Hs as (Hlen & Hflag & Hall).
    pose proof (proj1 (settle_app env R c (world s))) as Happ.
    destruct (settle env c (world s)) as [[o|e] w1]; cbn in Happ.
    2:{ unfold idle_flag. rewrite (verifying_stuck_nil s i who R c k e w1 _ Hi).
        cbn. rewrite Happ. exact Hidle. }
    pose proof (Forall_lookup_1 _ _ _ _ Hall Hi) as Hok. cbn in Hok.
    destruct (verify_origin who) eqn:Hwho.
    + set (s1 := {| world := w1; tasks := delete i (tasks s); unhandled := unhandled s |}).
      unfold dispatch.
      pose proof (advance_closing env who unit (k o) (world s1) (Hok o)) as Hadv.
      destruct (advance env who (k o) (world s1)) as [[[[]|e]|R' c' k'] w'].
      * intros _. exact Hadv.
      * intros _. exact Hadv.
      * unfold idle_flag. rewrite verifying_app. unfold is_verify. cbn. rewrite Hwho.
        intros H. apply app_eq_nil in H as [_ H]. discriminate.
    + apply Hother; cbn; auto using f_equal.
      unfold verifying. cbn. apply (filter_delete_out (tasks s) i _ Hi Hwho).
Qed.

Lemma exec_idle_flag (env : Env) (evs : list Event) (s : Sys) :
  one_at_a_time s -> idle_flag s -> idle_flag (exec env evs s).
Proof.
  revert s. induction evs as [|ev evs IH]; intros s Hs Hidle; cbn; [exact Hidle|].
  apply IH; [apply step_one_at_a_time, Hs|apply step_idle_flag; assumption].
Qed.

(** X11. On the page, the busy flag is set exactly while a verification is
    in flight: once a verification has ended the flag is clear again,
    whatever the answers were, and a verification stuck at a failed
    detection keeps it set; so the verify button reads "Verifying..." if
    and only if a verification is pending. *)
Theorem busy_flag_exact (env : Env) (evs : list Event) :
  let s := exec env evs initial in
  (isLoading (app (world s)) = true <-> verifying s <> [])
  /\ (verifyLabel (app (world s)) = "Verifying..." <-> verifying s <> []).
Proof.
  intros s.
  destruct (exec_one_at_a_time env evs initial initial_one_at_a_time) as (_ & Hflag & _).
  pose proof (exec_idle_flag env evs initial initial_one_at_a_time (fun _ => eq_refl))
    as Hidle.
  fold s in Hflag, Hidle. unfold idle_flag in Hidle.
  assert (Hiff : isLoading (app (world s)) = true <-> verifying s <> []).
  { split; [|exact Hflag]. intros Hbusy Hnone. rewrite (Hidle Hnone) in Hbusy.
    discriminate. }
  split; [exact Hiff|].
  rewrite <- Hiff. unfold verifyLabel.
  destruct (isLoading (app (world s))); split; intros H; try reflexivity; discriminate.
Qed.

(** ** Which errors escape the handlers *)

Lemma settle_unsettled (env : Env) (R : Type) (c : Async R) (w : World) (e : JsError) :
  (settle env c w).1 = Unsettled e -> detection_error env e.
Proof.
  destruct c; cbn; intros H.
  1: destruct (loadFromUri env url); discriminate H.
  1: discriminate H.
  1: destruct (getUserMedia env (length (requests w))); discriminate H.
  1: discriminate H.
  1: discriminate H.
  destruct (detectSingleFace env (modelsLoaded w) img) eqn:Hd; [discriminate H|].
  injection H as <-. exists (modelsLoaded w), img. exact Hd.
Qed.

Section Safety.

Variables (env : Env) (who : Origin).

Lemma safe_advance (A : Type) (p : Prog A) (w : World) :
  safe env who p ->
  match advance env who p w with
  | (Finished (Ok _), _) => True
  | (Finished (Throw _), _) => False
  | (Blocked _ k, _) => forall o, safe env who (k o)
  end.
Proof.
  revert w. induction p as [a|e|R op k IH|R c k IH]; intros w Hp; cbn in *.
  - exact I.
  - exact Hp.
  - specialize (Hp w).
    destruct (exec_op env who op w) as [o w1]. cbn in Hp.
    apply IH; assumption.
  - exact Hp.
Qed.

Lemma safe_perform (R : Type) (op : Op R) : infallible env who op -> safe env who (perform op).
Proof.
  intros Hop w. destruct (Hop w) as [r Hr]. rewrite Hr. exact I.
Qed.

Lemma safe_bind (A B : Type) (p : Prog A) (f : A -> Prog B) :
  safe env who p -> (forall a, safe env who (f a)) -> safe env who (bind p f).
Proof.
  intros Hp Hf. induction p as [a|e|R op k IH|R c k IH]; cbn in *.
  - apply Hf.
  - exact Hp.
  - intros w. apply IH, Hp.
  - intros o. apply IH, Hp.
Qed.

(** A [try] whose handler cannot throw cannot throw, whatever its body. *)
Lemma safe_try_catch (A : Type) (p : Prog A) (handler : JsError -> Prog A) :
  (forall e, safe env who (handler e)) -> safe env who (try_catch p handler).
Proof.
  intros Hh. induction p as [a|e|R op k IH|R c k IH]; cbn.
  - exact I.
  - apply Hh.
  - intros w. apply IH.
  - intros o. apply IH.
Qed.

Lemma safe_finally (A : Type) (p : Prog A) (final : Prog unit) :
  safe env who p -> safe env who final -> safe env who (finally p final).
Proof.
  intros Hp Hf. induction p as [a|e|R op k IH|R c k IH]; cbn in *.
  - apply safe_bind; [exact Hf|intros _; exact I].
  - contradiction.
  - intros w. apply IH, Hp.
  - intros o. apply IH, Hp.
Qed.

Lemma safe_forEach (A : Type) (l : list A) (f : A -> Prog unit) :
  (forall x, safe env who (f x)) -> safe env who (forEach l f).
Proof.
  intros Hf. induction l as [|x l IH]; cbn.
  - exact I.
  - apply safe_bind; [apply Hf|intros _; exact IH].
Qed.

(** The state setters, the reads of the refs, [track.stop()], the console
    and [alert] return a value in every world. *)
Lemma infallible_op (R : Type) (op : Op R) : elementless op -> infallible env who op.
Proof.
  intros Hop w. destruct op; try contradiction; cbn; eexists; reflexivity.
Qed.

End Safety.

Ltac safety :=
  repeat first
    [ exact I
    | apply safe_try_catch
    | apply safe_finally
    | apply safe_forEach
    | apply safe_bind
    | apply safe_perform; apply infallible_op; exact I
    | intro
    | match goal with
      | |- safe _ _ (match ?x with _ => _ end) => destruct x
      | |- safe _ _ (match ?x with _ => _ end _) => destruct x
      | |- safe _ _ (if ?b then _ else _) => destruct b
      end ].

Lemma loadModels_safe (env : Env) (who : Origin) : safe env who loadModels.
Proof. unfold loadModels, consoleLog, consoleError, mbind, Prog_bind. safety. Qed.

Lemma cleanup_safe (env : Env) (who : Origin) : safe env who cleanup.
Proof. unfold cleanup, stopTracks, mbind, Prog_bind. safety. Qed.

Lemma startCamera_safe (env : Env) (who : Origin) : safe env who startCamera.
Proof. unfold startCamera, consoleError, alert, mbind, Prog_bind. safety. Qed.

(** [captureImage] touches the elements only after it has found both. *)
Lemma captureImage_returns (env : Env) (who : Origin) (w : World) :
  exists w', advance env who captureImage w = (Finished (Ok tt), w').
Proof.
  unfold captureImage.
  destruct w as [a [v|] [[cw ch [|] bm]|] sr lt nt ml rq rb]; cbn;
    eexists; reflexivity.
Qed.

Lemma handleImageUpload_safe (env : Env) (who : Origin) (files : list File) :
  safe env who (handleImageUpload files).
Proof.
  unfold handleImageUpload, setUploadedImage, setVerificationResult, mbind, Prog_bind.
  destruct (head files); [|exact I]. intros [result|e]; [|exact I].
  destruct (truthy result); [|exact I]. safety.
Qed.

Lemma verifyFaces_safe (env : Env) (who : Origin) (u c : option string) :
  safe env who (verifyFaces env u c).
Proof.
  unfold verifyFaces, setVerificationResult, setIsLoading, consoleError, mbind, Prog_bind.
  safety.
Qed.

Lemma dispatch_safe (env : Env) (who : Origin) (p : Prog unit) (s : Sys) :
  safe env who p -> sys_safe env s -> sys_safe env (dispatch env who p s).
Proof.
  intros Hp (Hnone & Hall). unfold dispatch.
  pose proof (safe_advance env who unit p (world s) Hp) as Hadv.
  destruct (advance env who p (world s)) as [[[[]|e]|R c k] w'].
  - split; assumption.
  - contradiction.
  - split; cbn; [exact Hnone|].
    apply Forall_app. split; [exact Hall|]. apply Forall_singleton. exact Hadv.
Qed.

Lemma step_safe (env : Env) (ev : Event) (s : Sys) :
  sys_safe env s -> sys_safe env (step env ev s).
Proof.
  intros Hs. destruct ev as [| |files| | | |i]; unfold step.
  - apply dispatch_safe; [apply loadModels_safe|exact Hs].
  - apply dispatch_safe; [apply cleanup_safe|exact Hs].
  - apply dispatch_safe; [apply handleImageUpload_safe|exact Hs].
  - apply dispatch_safe; [apply startCamera_safe|exact Hs].
  - unfold dispatch. destruct (captureImage_returns env ByCapture (world s)) as [w' ->].
    exact Hs.
  - destruct (verifyDisabled (app (world s))); [exact Hs|].
    apply dispatch_safe; [apply verifyFaces_safe|exact Hs].
  - destruct (tasks s !! i) as [[who R c k|who e]|] eqn:Hi; [|exact Hs|exact Hs].
    destruct Hs as (Hnone & Hall).
    pose proof (settle_unsettled env R c (world s)) as Herr.
    destruct (settle env c (world s)) as [[o|e] w1]; cbn in Herr.
    + apply dispatch_safe.
      * exact (Forall_lookup_1 _ _ _ _ Hall Hi o).
      * split; cbn; [exact Hnone|apply Forall_delete, Hall].
    + split; cbn.
      * apply Forall_app. split; [exact Hnone|].
        apply Forall_singleton. apply Herr. reflexivity.
      * apply Forall_app. split; [apply Forall_delete, Hall|].
        apply Forall_singleton. exact I.
Qed.

Lemma exec_safe (env : Env) (evs : list Event) (s : Sys) :
  sys_safe env s -> sys_safe env (exec env evs s).
Proof.
  revert s. induction evs as [|ev evs IH]; intros s Hs; cbn; [exact Hs|].
  apply IH, step_safe, Hs.
Qed.

(** X12. The errors that escape the handlers of the page are the failed
    detections, and nothing else.  Whatever the user does and whatever the
    model loader, the file reader, the camera, [play], the image fetches
    and the descriptor comparison answer, no handler invocation ends with
    a thrown error: every unhandled error is the failure of a detection
    task, which no [catch] of the component gets to see.  With an engine
    whose detections never fail no error goes unhandled. *)
Theorem no_uncaught_error (env : Env) (evs : list Event) :
  let s := exec env evs initial in
  Forall (detection_error env) (unhandled s)
  /\ ((forall loaded img, exists r, detectSingleFace env loaded img = Ok r) ->
      unhandled s = []).
Proof.
  intros s.
  assert (Hinit : sys_safe env initial) by (split; constructor).
  destruct (exec_safe env evs initial Hinit) as (Herr & _).
  fold s in Herr. split; [exact Herr|].
  intros Hok. destruct (unhandled s) as [|e l]; [reflexivity|].
  apply Forall_cons in Herr as [(loaded & img & He) _].
  destruct (Hok loaded img) as [r Hr]. congruence.
Qed.

(** ** What the result box can show *)

Section Invariants.

Variables (env : Env) (who : Origin).
Variables (Inv : World -> Prop) (P : forall R : Type, Op R -> Prop).
Hypothesis Inv_log : forall r w, Inv w -> Inv (log_request r w).
Hypothesis Inv_op : forall R (op : Op R) w, P R op -> Inv w -> Inv (exec_op env who op w).2.

(** A program all of whose effects keep [Inv] keeps it up to its next
    await, and what is left of it is such a program again. *)
Lemma advance_invariant (A : Type) (p : Prog A) (w : World) :
  always P p -> Inv w ->
  match advance env who p w with
  | (Finished _, w') => Inv w'
  | (Blocked _ k, w') => Inv w' /\ forall o, always P (k o)
  end.
Proof.
  revert w. induction p as [a|e|R op k IH|R c k IH]; intros w Hp Hw; cbn in *.
  - exact Hw.
  - exact Hw.
  - destruct Hp as [Hop Hk].
    pose proof (Inv_op R op w Hop Hw) as Hw1.
    destruct (exec_op env who op w) as [o w1]. cbn in Hw1.
    apply IH; [apply Hk|exact Hw1].
  - split; [apply Inv_log, Hw|exact Hp].
Qed.

End Invariants.

Lemma always_impl (P Q : forall R : Type, Op R -> Prop) (A : Type) (p : Prog A) :
  (forall R op, P R op -> Q R op) -> always P p -> always Q p.
Proof.
  intros HPQ. induction p as [a|e|R op k IH|R c k IH]; cbn; try tauto.
  - intros [Hop Hk]. split; [apply HPQ, Hop|]. intros o. apply IH, Hk.
  - intros Hk o. apply IH, Hk.
Qed.

Lemma keeps_app_displayable (env : Env) (A : Type) (p : Prog A) :
  always keeps_app p -> always (writes_displayable env) p.
Proof.
  apply always_impl. intros R op. destruct op; cbn; try contradiction; exact (fun _ => I).
Qed.

Lemma exec_op_displayable (env : Env) (who : Origin) (R : Type) (op : Op R) (w : World) :
  writes_displayable env R op ->
  displayable env (verificationResult (app w)) ->
  displayable env (verificationResult (app (exec_op env who op w).2)).
Proof.
  destruct op; cbn; unfold on_video, on_canvas;
    try destruct (canvasRef w); try destruct (videoRef w); cbn; auto.
Qed.

Lemma displayable_None (env : Env) : displayable env None.
Proof. left. reflexivity. Qed.

Lemma handleImageUpload_displayable (env : Env) (files : list File) :
  always (writes_displayable env) (handleImageUpload files).
Proof.
  unfold handleImageUpload, setUploadedImage, setVerificationResult, mbind, Prog_bind.
  destruct (head files); [|exact I]. intros [result|e]; [|exact I].
  destruct (truthy result); [|exact I].
  footprint. all: apply displayable_None.
Qed.

Lemma captureImage_displayable (env : Env) :
  always (writes_displayable env) captureImage.
Proof.
  unfold captureImage, setCameraImage, setVerificationResult, mbind, Prog_bind.
  footprint. all: apply displayable_None.
Qed.

(** Past its guard, [verifyFaces] writes only the four texts of its [try]. *)
Lemma verifyFaces_displayable (env : Env) (u' c' : option string) (u c : string) :
  truthy u' = Some u -> truthy c' = Some c ->
  always (writes_displayable env) (verifyFaces env u' c').
Proof.
  intros Hu Hc.
  unfold verifyFaces, setVerificationResult, setIsLoading, consoleLog, consoleError,
    mbind, Prog_bind.
  rewrite Hu, Hc. footprint.
  - cbn. unfold displayable. destruct (_ <? _)%float; eauto 10.
  - cbn. unfold displayable. auto.
  - cbn. unfold displayable. auto.
  - cbn. unfold displayable. auto.
Qed.

Lemma dispatch_displayable (env : Env) (who : Origin) (p : Prog unit) (s : Sys) :
  always (writes_displayable env) p ->
  displayable env (verificationResult (app (world s))) ->
  Forall (task_displayable env) (tasks s) ->
  displayable env (verificationResult (app (world (dispatch env who p s))))
  /\ Forall (task_displayable env) (tasks (dispatch env who p s)).
Proof.
  intros Hp Hw Hall. unfold dispatch.
  pose proof (advance_invariant env who
                (fun w => displayable env (verificationResult (app w)))
                (writes_displayable env) (fun _ _ H => H)
                (exec_op_displayable env who) unit p (world s) Hp Hw) as Hadv.
  destruct (advance env who p (world s)) as [[[[]|e]|R c k] w'].
  - split; [exact Hadv|exact Hall].
  - split; [exact Hadv|exact Hall].
  - destruct Hadv as [Hw' Hk]. split; [exact Hw'|]. cbn.
    apply Forall_app. split; [exact Hall|]. apply Forall_singleton. exact Hk.
Qed.

Lemma step_displayable (env : Env) (ev : Event) (s : Sys) :
  displayable env (verificationResult (app (world s))) ->
  Forall (task_displayable env) (tasks s) ->
  displayable env (verificationResult (app (world (step env ev s))))
  /\ Forall (task_displayable env) (tasks (step env ev s)).
Proof.
  intros Hw Hall. destruct ev as [| |files| | | |i]; unfold step.
  - apply dispatch_displayable; auto using keeps_app_displayable, loadModels_keeps_app.
  - apply dispatch_displayable; auto using keeps_app_displayable, cleanup_keeps_app.
  - apply dispatch_displayable; auto using handleImageUpload_displayable.
  - apply dispatch_displayable; auto using keeps_app_displayable, startCamera_keeps_app.
  - apply dispatch_displayable; auto using captureImage_displayable.
  - destruct (verifyDisabled (app (world s))) eqn:Hdis; [split; assumption|].
    destruct (verifyDisabled_false _ Hdis) as (_ & [u Hu] & [c Hc]).
    apply dispatch_displayable; eauto using verifyFaces_displayable.
  - destruct (tasks s !! i) as [[who R c k|who e]|] eqn:Hi;
      [|split; assumption|split; assumption].
    pose proof (proj1 (settle_app env R c (world s))) as Happ.
    destruct (settle env c (world s)) as [[o|e] w1]; cbn in Happ.
    2:{ split; cbn; [rewrite Happ; exact Hw|].
        apply Forall_app. split; [apply Forall_delete, Hall|].
        apply Forall_singleton. exact I. }
    apply dispatch_displayable; cbn.
    + exact (Forall_lookup_1 _ _ _ _ Hall Hi o).
    + rewrite Happ. exact Hw.
    + apply Forall_delete, Hall.
Qed.

Lemma exec_displayable (env : Env) (evs : list Event) (s : Sys) :
  displayable env (verificationResult (app (world s))) ->
  Forall (task_displayable env) (tasks s) ->
  displayable env (verificationResult (app (world (exec env evs s)))).
Proof.
  revert s. induction evs as [|ev evs IH]; intros s Hw Hall; cbn; [exact Hw|].
  destruct (step_displayable env ev s Hw Hall) as [Hw' Hall']. apply IH; assumption.
Qed.

(** X13. On the page the result is absent or one of four texts: the error,
    no-face, no-match or a match message.  The missing-input message of
    [verifyFaces] never shows: the verify button is disabled while an
    image is missing, so the early return of [verifyFaces] is out of
    reach of any sequence of user actions. *)
Theorem missing_input_unreachable (env : Env) (evs : list Event) :
  let r := verificationResult (app (world (exec env evs initial))) in
  displayable env r /\ r <> Some msg_missing.
Proof.
  intros r.
  assert (Hr : displayable env r)
    by (apply exec_displayable; [left; reflexivity|constructor]).
  split; [exact Hr|].
  intros Hm. destruct Hr as [H|[H|[H|[H|[conf H]]]]]; rewrite Hm in H;
    try discriminate.
Qed.

(** X10. The result box of the page is rendered exactly when there is a
    result, and it is green exactly when the result is a match message:
    the no-match, no-face and error messages are shown in red (the
    no-match text contains "Match" but not "Match!"), and so would the
    missing-input message be. *)
Theorem result_box_colour (env : Env) (evs : list Event) :
  let r := verificationResult (app (world (exec env evs initial))) in
  (resultBox r = None <-> r = None)
  /\ (resultBox r = Some Green <-> exists confidence, r = Some (msg_match env confidence))
  /\ (resultBox r = Some Red
      <-> r = Some msg_error \/ r = Some msg_no_face \/ r = Some msg_no_match)
  /\ resultBox (Some msg_missing) = Some Red.
Proof.
  intros r.
  assert (Hred : resultBox (Some msg_error) = Some Red
                 /\ resultBox (Some msg_no_face) = Some Red
                 /\ resultBox (Some msg_no_match) = Some Red
                 /\ resultBox (Some msg_missing) = Some Red)
    by (repeat split; vm_compute; reflexivity).
  destruct Hred as (H1 & H2 & H3 & H4).
  assert (Hneq : forall conf,
            Some (msg_match env conf) <> Some msg_error
            /\ Some (msg_match env conf) <> Some msg_no_face
            /\ Some (msg_match env conf) <> Some msg_no_match).
  { intros conf. destruct (msg_match_neq env conf) as (_ & ? & ? & ?).
    repeat split; congruence. }
  assert (Hr : displayable env r)
    by (apply exec_displayable; [left; reflexivity|constructor]).
  split; [|split; [|split; [|exact H4]]].
  - destruct Hr as [H|[H|[H|[H|[conf H]]]]]; rewrite H;
      rewrite ?H1, ?H2, ?H3, ?resultBox_match; split; intros; try discriminate;
      reflexivity.
  - destruct Hr as [H|[H|[H|[H|[conf H]]]]]; rewrite H;
      rewrite ?H1, ?H2, ?H3, ?resultBox_match.
    + split; [discriminate|intros [conf [=]]].
    + split; [discriminate|]. intros [conf Hc]. destruct (Hneq conf) as (? & ? & ?).
      congruence.
    + split; [discriminate|]. intros [conf Hc]. destruct (Hneq conf) as (? & ? & ?).
      congruence.
    + split; [discriminate|]. intros [conf Hc]. destruct (Hneq conf) as (? & ? & ?).
      congruence.
    + split; [eauto|reflexivity].
  - destruct Hr as [H|[H|[H|[H|[conf H]]]]]; rewrite H;
      rewrite ?H1, ?H2, ?H3, ?resultBox_match.
    + split; [discriminate|intros [?|[?|?]]; discriminate].
    + split; auto.
    + split; auto.
    + split; auto.
    + split; [discriminate|]. destruct (Hneq conf) as (? & ? & ?).
      intros [?|[?|?]]; congruence.
Qed.
